(** * dist_mat: pairwise distance matrix of grouped addresses

    A shallow embedding of [dist_mat.py]: the job generator [create_jobs],
    the quota-governed query loop [get_dist_mat] and the CSV exporter
    [export_result], followed by the properties of the design document
    that were checked against them.

    Conventions of the embedding.
    - A Python [dict] whose iteration order the program observes (the
      address book) is an association list in insertion order whose keys
      are pairwise distinct ([is_dict]).
    - A [dict] read only by key or through [sorted] (the distance matrix,
      [addr_name]) is a [gmap].
    - Python [int] is [Z] for identifiers and [nat] for the two counters,
      which start at zero and are only ever incremented.
    - Python [float] is the kernel's binary64 [float]; [time()] readings,
      subtraction and [<] are the IEEE operations the interpreter uses.
    - [time()], [sleep], the HTTP request and [print] are recorded in a
      chronological trace of events; what the clock shows and what the
      distance service answers are arbitrary functions of the trace so far. *)

From Stdlib Require Import PrimFloat.
From stdpp Require Import gmap strings list sorting relations.

Local Open Scope Z_scope.

(** ** Exceptions and results *)

Inductive exn : Type :=
  | KeyError (key : Z)
  | NameError (name : string)
  | IndexError
  | OracleError.

Inductive result (A : Type) : Type :=
  | Ok (a : A)
  | Raise (e : exn).
Arguments Ok {A} a.
Arguments Raise {A} e.

#[global] Instance result_ret : MRet result := λ A a, Ok a.
#[global] Instance result_bind : MBind result := λ A B f r,
  match r with
  | Ok a => f a
  | Raise e => Raise e
  end.

(** ** Insertion-ordered dictionaries *)

Section Dict.
Context {K V : Type} `{EqDecision K}.

Definition keys (d : list (K * V)) : list K := d.*1.

(** The keys of a [dict] are pairwise distinct. *)
Definition is_dict (d : list (K * V)) : Prop := NoDup (keys d).

(** [d.get(k)]: the entry stored under [k], if any. *)
Fixpoint dict_get (k : K) (d : list (K * V)) : option V :=
  match d with
  | [] => None
  | (k', v) :: d' => if decide (k = k') then Some v else dict_get k d'
  end.

End Dict.

(** ** Data model *)

(** [{address_id: address}] *)
Abbreviation group := (list (Z * string)).
(** [{group_no: {address_id: address}}] *)
Abbreviation address_book := (list (Z * group)).
(** [(group_no, ori_id, des_id)] *)
Abbreviation job := (Z * Z * Z)%type.
(** [{ori_id: {des_id: distance}}] *)
Abbreviation matrix := (gmap Z (gmap Z string)).

(** Every level of the address book is a [dict]. *)
Definition addr_book_ok (book : address_book) : Prop :=
  is_dict book ∧ Forall (λ ga, is_dict ga.2) book.

(** All (id, address) entries of the book, group after group. *)
Definition entries (book : address_book) : list (Z * string) :=
  ga ← book; ga.2.

(** All address ids of the book, group after group. *)
Definition all_ids (book : address_book) : list Z :=
  ga ← book; keys ga.2.

(** The invariant [import_addr] establishes with its running counter:
    an address id appears once in the whole book. *)
Definition ids_one_group (book : address_book) : Prop := NoDup (all_ids book).

(** ** [create_jobs] *)

(** [itertools.combinations(iterable, 2)]: the pairs of elements taken at
    positions [p < q], in lexicographic order of [(p, q)]. *)
Fixpoint combinations2 {A : Type} (l : list A) : list (A * A) :=
  match l with
  | [] => []
  | x :: t => (pair x <$> t) ++ combinations2 t
  end.

Definition create_jobs (book : address_book) : list job :=
  foldl (λ job_list ga,
           let '(grp, adds) := ga in
           let id_pairs := combinations2 (keys adds) in
           foldl (λ job_list id_pair, job_list ++ [(grp, id_pair.1, id_pair.2)])
                 job_list id_pairs)
        [] book.

(** The jobs of one group, and the job list as their concatenation. *)
Definition group_jobs (ga : Z * list (Z * string)) : list job :=
  (λ id_pair : Z * Z, (ga.1, id_pair.1, id_pair.2)) <$> combinations2 (keys ga.2).

(** Number of 2-combinations of [n] elements. *)
Definition choose2 (n : nat) : nat := (n * (n - 1) / 2)%nat.

(** The unordered pair of a pair of ids. *)
Definition unordered (p : Z * Z) : Z * Z := (Z.min p.1 p.2, Z.max p.1 p.2).

(** The unordered pair a job covers, and the same within its group. *)
Definition pair_of (j : job) : Z * Z := unordered (j.1.2, j.2).
Definition group_pair_of (j : job) : Z * (Z * Z) := (j.1.1, pair_of j).

(** ** The outside world *)

Inductive event : Type :=
  | EvTime (t : float)                                 (* time() returned t *)
  | EvSleep (secs : float)                             (* sleep(secs) *)
  | EvGet (origins destinations : string) (dist : string)  (* the request and
                                                          the value parsed from it *)
  | EvPrint (line : string).

Abbreviation trace := (list event).

(** Computations that read the clock, sleep, query and may raise. *)
Definition M (A : Type) : Type := trace → result (A * trace).

#[global] Instance M_ret : MRet M := λ A a tr, Ok (a, tr).
#[global] Instance M_bind : MBind M := λ A B f c tr,
  match c tr with
  | Ok (a, tr') => f a tr'
  | Raise e => Raise e
  end.

Definition raise {A : Type} (e : exn) : M A := λ _, Raise e.

(** The requests made so far, oldest first. *)
Definition gets (tr : trace) : list (string * string) :=
  omap (λ ev, match ev with EvGet o d _ => Some (o, d) | _ => None end) tr.

(** The waits made so far, oldest first. *)
Definition sleeps (tr : trace) : list float :=
  omap (λ ev, match ev with EvSleep s => Some s | _ => None end) tr.

(** ** The distance matrix *)

(** The cell [dist_mat[o][d]], if it was ever written. *)
Definition cell_at (m : matrix) (o d : Z) : option string :=
  m !! o ≫= λ row, row !! d.

(** [dist_mat[o][d] = v] on a [defaultdict(dict)]: a missing row is created
    empty by the first subscript. *)
Definition set_cell (o d : Z) (v : string) (m : matrix) : matrix :=
  <[o := <[d := v]> (default ∅ (m !! o))]> m.

(** ** [query_dist] and [get_dist_mat] *)

(** The local variables of [get_dist_mat] that change in the loop. *)
Record sched : Type := Sched {
  i : nat;
  last_time : float;
  num_jobs_day : nat;
  dist_mat : matrix
}.

Definition max_jobs_day : nat := 2500.

#[local] Set Warnings "-inexact-float".
Definition time_jobs : float := 0.002.
(** The literal of [last_time = current_time - 0.002]. *)
Definition reset_gap : float := 0.002.
#[local] Set Warnings "inexact-float".

(** [3600 * 24] is the integer 86400; Python compares a float with an
    integer by value, here the same as with the float 86400. (The local
    [time_quota = 3600] is never read.) *)
Definition day : float := 86400.

Section Scheduler.
(** What [time()] returns after a given history. *)
Variable clock : trace → float.
(** The distance the service's reply yields for an (origins, destinations)
    request after a given history: [requests.get], [fromstring], [find] and
    [.text]; [None] when any of them raises. *)
Variable oracle : trace → string → string → option string.

Definition time : M float := λ tr, Ok (clock tr, tr ++ [EvTime (clock tr)]).

Definition sleep (secs : float) : M () := λ tr, Ok ((), tr ++ [EvSleep secs]).

Definition http_get (ori des : string) : M string := λ tr,
  match oracle tr ori des with
  | Some dist => Ok (dist, tr ++ [EvGet ori des dist])
  | None => Raise OracleError
  end.

(** [addr_book[grp][id]]: [addr_book] is a [defaultdict(dict)], so an
    unknown group reads as an empty one and the second subscript raises. *)
Definition subscript (addr_book : address_book) (grp id : Z) : M string :=
  match dict_get id (default [] (dict_get grp addr_book)) with
  | Some addr => mret addr
  | None => raise (KeyError id)
  end.

Definition query_dist (grp ori_id des_id : Z) (addr_book : address_book) : M string :=
  ori ← subscript addr_book grp ori_id;
  des ← subscript addr_book grp des_id;
  http_get ori des.

Variable addr_book : address_book.
Variable job_list : list job.

Definition num_jobs : nat := length job_list.

(** [job_list[i]] *)
Definition job_at (n : nat) : M job :=
  match job_list !! n with
  | Some j => mret j
  | None => raise IndexError
  end.

(** One pass through the body of [while i < num_jobs]. The name [wait_time]
    is bound nowhere in the module, so evaluating the argument of
    [sleep(wait_time)] raises [NameError] before [sleep] or [continue] run. *)
Definition loop_body (st : sched) : M sched :=
  current_time ← time;
  '(num_jobs_day', last_time') ←
    (if bool_decide (max_jobs_day ≤ num_jobs_day st)%nat then
       if (current_time - last_time st <? day)%float then
         raise (NameError "wait_time")
       else
         mret (0%nat, (current_time - reset_gap)%float)
     else mret (num_jobs_day st, last_time st));
  (if (current_time - last_time' <? time_jobs)%float
   then sleep time_jobs else mret ());;
  j ← job_at (i st);
  let '(grp, ori_id, des_id) := j in
  dist ← query_dist grp ori_id des_id addr_book;
  mret {| i := S (i st);
          last_time := current_time;
          num_jobs_day := S num_jobs_day';
          dist_mat := set_cell des_id ori_id dist
                        (set_cell ori_id des_id dist (dist_mat st)) |}.

Definition init : sched :=
  {| i := 0; last_time := 0; num_jobs_day := 0; dist_mat := ∅ |}.

(** The [while] loop, with a bound on the number of passes; [None] when the
    bound is reached with the guard still true. *)
Fixpoint while_loop (fuel : nat) (st : sched) (tr : trace)
  : option (result (sched * trace)) :=
  if bool_decide (i st < num_jobs)%nat then
    match fuel with
    | O => None
    | S fuel' =>
        match loop_body st tr with
        | Ok (st', tr') => while_loop fuel' st' tr'
        | Raise e => Some (Raise e)
        end
    end
  else Some (Ok (st, tr)).

(** Every pass that does not raise advances [i], so [num_jobs] passes are
    enough ([get_dist_mat_total]). *)
Definition get_dist_mat : option (result (matrix * trace)) :=
  match while_loop num_jobs init [] with
  | Some (Ok (st, tr)) => Some (Ok (dist_mat st, tr ++ [EvPrint "Finish querying!"]))
  | Some (Raise e) => Some (Raise e)
  | None => None
  end.

(** One pass of the loop as a step between configurations. *)
Definition step (c c' : sched * trace) : Prop :=
  (i c.1 < num_jobs)%nat ∧ loop_body c.1 c.2 = Ok c'.

(** The configurations a run goes through at the head of the loop. *)
Definition reachable (c : sched * trace) : Prop := rtc step (init, []) c.

(** The configuration after [n] passes from [c], when none of them raises
    and the guard holds before each. *)
Fixpoint passes (n : nat) (c : sched * trace) : option (sched * trace) :=
  match n with
  | O => Some c
  | S n' =>
      if bool_decide (i c.1 < num_jobs)%nat then
        match loop_body c.1 c.2 with
        | Ok c' => passes n' c'
        | Raise _ => None
        end
      else None
  end.

(** The request a job stands for. *)
Definition request_of (j : job) : option (string * string) :=
  let book_grp := default [] (dict_get j.1.1 addr_book) in
  ori ← dict_get j.1.2 book_grp;
  des ← dict_get j.2 book_grp;
  Some (ori, des).

End Scheduler.

(** ** [export_result] *)

(** A field handed to [csv.writer.writerow]: a string or an integer. *)
Inductive cell : Type :=
  | CStr (s : string)
  | CInt (n : Z).

(** The dictionary [addr_name] after the two nested loops. *)
Definition build_addr_name (addr_book : address_book) : gmap Z string :=
  foldl (λ addr_name ga,
           foldl (λ addr_name ia, <[ia.1 := ia.2]> addr_name) addr_name ga.2)
        ∅ addr_book.

(** [sorted(dist_mat.keys())] *)
Definition sorted_keys (dist_mat : matrix) : list Z :=
  merge_sort Z.le (map_to_list dist_mat).*1.

(** [addr_name[id]] *)
Definition name_of (addr_name : gmap Z string) (id : Z) : result string :=
  match addr_name !! id with
  | Some a => Ok a
  | None => Raise (KeyError id)
  end.

(** [dist_mat[ori_id].get(des_id, 0)] *)
Definition get_or_zero (dist_mat : matrix) (ori_id des_id : Z) : cell :=
  match default ∅ (dist_mat !! ori_id) !! des_id with
  | Some dist => CStr dist
  | None => CInt 0
  end.

(** The rows written, in order; opening the file and the CSV quoting are
    left to the [csv] module. *)
Definition export_result (addr_book : address_book) (dist_mat : matrix)
  : result (list (list cell)) :=
  let addr_name := build_addr_name addr_book in
  let addr_ids := sorted_keys dist_mat in
  names ← mapM (name_of addr_name) addr_ids;
  let header := CStr "sample" :: (CStr <$> names) in
  lines ← mapM (λ ori_id,
                  a ← name_of addr_name ori_id;
                  mret (CStr a :: (get_or_zero dist_mat ori_id <$> addr_ids)))
               addr_ids;
  mret (header :: lines).


(** ** A simulated world for closed examples *)

(** A clock that starts at [start], advances by [latency k] during the
    [k]-th request (counted from zero) and by [secs] during [sleep(secs)]. *)
Definition sim_clock (start : float) (latency : N → float) (tr : trace) : float :=
  (foldl (λ '(t, k) ev,
            match ev with
            | EvSleep secs => ((t + secs)%float, k)
            | EvGet _ _ _ => ((t + latency k)%float, N.succ k)
            | _ => (t, k)
            end) (start, 0%N) tr).1.

(** A clock that only the answered requests move: it shows [ticks k] once
    [k] requests have been answered. *)
Definition counting_clock (ticks : nat → float) (tr : trace) : float :=
  ticks (length (gets tr)).

(** Readings that start at [start] and advance by an eighth of a second
    with each request. *)
Fixpoint eighths (start : float) (k : nat) : float :=
  match k with
  | O => start
  | S k' => (eighths start k' + 0.125)%float
  end.

(** The same readings, a day and 0.375 s later once [max_jobs_day]
    requests have been answered. *)
Definition then_a_day (ticks : nat → float) (k : nat) : float :=
  if bool_decide (max_jobs_day ≤ k)%nat then (ticks k + 86400.375)%float else ticks k.

(** A service that always answers [v]. *)
Definition const_oracle (v : string) : trace → string → string → option string :=
  λ _ _ _, Some v.

(** One group [grp] holding the ids [0 .. n-1]. *)
Definition one_group (grp : Z) (n : nat) : address_book :=
  [(grp, (λ k : nat, (Z.of_nat k, "addr")) <$> seq 0 n)].


(** ** Closed examples *)

(** Midnight of 2014-09-28 and of 2039-09-18 (UTC), in seconds since the
    epoch. *)
Definition epoch_2014 : float := 1411862400.
Definition epoch_2039 : float := 2199916800.

(** Requests that take an eighth of a second, or 2^-11 seconds. *)
Definition slow : N → float := λ _, 0.125%float.
Definition fast : N → float := λ _, 0.00048828125%float.

(** A group of two addresses and a group of one. *)
Definition book_2_1 : address_book :=
  [(1, [(0, "A"); (1, "B")]); (2, [(2, "C")])]%string.

(** Seventy-two addresses in one group: 2556 jobs. *)
Definition book_72 : address_book := one_group 1 72.

(** Two groups, of three and of two addresses. *)
Definition book_3_2 : address_book :=
  [(1, [(0, "A"); (1, "B"); (2, "C")]); (2, [(3, "D"); (4, "E")])]%string.

(** ** Vocabulary of the statements about one pass *)

(** The quota test of the pass: the day's count has reached the maximum. *)
Definition quota_reached (st : sched) : bool :=
  bool_decide (max_jobs_day ≤ num_jobs_day st)%nat.

(** The value of [last_time] when the pacing test is made: the reset value
    after a roll-over, the stored one otherwise. *)
Definition pacing_reference (st : sched) (current_time : float) : float :=
  if quota_reached st then (current_time - reset_gap)%float else last_time st.

(** The pacing test [current_time - last_time < time_jobs]. *)
Definition pacing_wait (st : sched) (current_time : float) : bool :=
  (current_time - pacing_reference st current_time <? time_jobs)%float.

(** The trace when the request of the pass is sent. *)
Definition trace_at_dispatch (st : sched) (tr : trace) (current_time : float) : trace :=
  tr ++ [EvTime current_time]
     ++ (if pacing_wait st current_time then [EvSleep time_jobs] else []).

(** The variables after a pass that read [current_time], dispatched the job
    [(grp, ori_id, des_id)] and was answered [dist]. *)
Definition after_dispatch (st : sched) (current_time : float)
    (ori_id des_id : Z) (dist : string) : sched :=
  {| i := S (i st);
     last_time := current_time;
     num_jobs_day := S (if quota_reached st then 0 else num_jobs_day st);
     dist_mat := set_cell des_id ori_id dist
                   (set_cell ori_id des_id dist (dist_mat st)) |}.

(** The wait the design document words: what is left of [time_jobs] after
    the time passed since the last dispatch. *)
Definition remaining_interval (st : sched) (current_time : float) : float :=
  (time_jobs - (current_time - last_time st))%float.

(** ** Vocabulary of the statements about the matrix *)

Definition symmetric (m : matrix) : Prop :=
  ∀ o d, cell_at m o d = cell_at m d o.

(** Some job of [jobs] is about the unordered pair of [o] and [d]. *)
Definition covers (jobs : list job) (o d : Z) : Prop :=
  ∃ g, (g, o, d) ∈ jobs ∨ (g, d, o) ∈ jobs.

(** The id [o] is the origin or the destination of some job of [jobs]. *)
Definition mentions (jobs : list job) (o : Z) : Prop :=
  ∃ g a b, (g, a, b) ∈ jobs ∧ (o = a ∨ o = b).

(** * The rest of the program: [import_addr] and [main] *)

(** ** Text *)

(** A [str] is the string of its code points, taken below 256. The tab and
    the newline: *)
Definition tab : Ascii.ascii := Ascii.ascii_of_N 9.
Definition newline : Ascii.ascii := Ascii.ascii_of_N 10.
(** The comment mark [#], and the two signs. *)
Definition hash : Ascii.ascii := Ascii.ascii_of_N 35.
Definition plus_sign : Ascii.ascii := Ascii.ascii_of_N 43.
Definition minus_sign : Ascii.ascii := Ascii.ascii_of_N 45.

(** [c.isspace()] for a code point below 256: tab to carriage return, the
    four separators 28 to 31, the space, NEL and the no-break space. *)
Definition isspace (c : Ascii.ascii) : bool :=
  let n := Ascii.N_of_ascii c in
  ((9 <=? n) && (n <=? 13) || (28 <=? n) && (n <=? 32) || (n =? 133) || (n =? 160))%N.

(** [s.rstrip()] *)
Fixpoint rstrip (s : string) : string :=
  match s with
  | EmptyString => EmptyString
  | String c s' =>
      match rstrip s' with
      | EmptyString => if isspace c then EmptyString else String c EmptyString
      | r => String c r
      end
  end.

(** [s.split(sep)] for a separator of one character: the fields between
    the separators, at least one. *)
Fixpoint split (sep : Ascii.ascii) (s : string) : list string :=
  match s with
  | EmptyString => [EmptyString]
  | String c s' =>
      if decide (c = sep) then EmptyString :: split sep s'
      else match split sep s' with
           | field :: fields => String c field :: fields
           | [] => [String c EmptyString]
           end
  end.

(** [sep.join(fields)] *)
Fixpoint join (sep : Ascii.ascii) (fields : list string) : string :=
  match fields with
  | [] => EmptyString
  | [field] => field
  | field :: fields' => (field ++ String sep (join sep fields'))%string
  end.

(** [s.startswith(c)] for a prefix of one character. *)
Definition startswith (c : Ascii.ascii) (s : string) : bool :=
  match s with
  | String c' _ => bool_decide (c' = c)
  | EmptyString => false
  end.

(** ** Insertion into the address book *)

(** [d[k] = v]: the value is replaced where the key stands, a new key goes
    to the end. *)
Fixpoint dict_set {K V : Type} `{EqDecision K} (k : K) (v : V) (d : list (K * V))
  : list (K * V) :=
  match d with
  | [] => [(k, v)]
  | (k', v') :: d' =>
      if decide (k = k') then (k, v) :: d' else (k', v') :: dict_set k v d'
  end.

(** [addr_book[grp][id] = add] on a [defaultdict(dict)]: an unknown group
    is first created empty, at the end of the book. *)
Definition book_set (grp id : Z) (add : string) (addr_book : address_book)
  : address_book :=
  dict_set grp (dict_set id add (default [] (dict_get grp addr_book))) addr_book.

(** ** [import_addr] *)

(** The exceptions of the loop body: [items[1]] on a line of one field,
    and [int] on a field that is no integer. *)
Inductive import_exn : Type :=
  | IndexError_items
  | ValueError_int.

Section ImportFile.
(** The builtin [int] on a [str]; [None] when it raises [ValueError]. *)
Variable int : string → option Z.

(** The lines the loop skips: comments and empty lines. *)
Definition skipped (line : string) : bool :=
  startswith hash line || startswith newline line.

(** [items = line.rstrip().split('\t')], [add = items[0]],
    [grp = int(items[1])]. *)
Definition parse_line (line : string) : import_exn + (string * Z) :=
  let items := split tab (rstrip line) in
  let add := hd EmptyString items in
  match items !! 1%nat with
  | None => inl IndexError_items
  | Some field =>
      match int field with
      | None => inl ValueError_int
      | Some grp => inr (add, grp)
      end
  end.

(** The loop over the lines of the file, from the book and the next id
    reached so far. *)
Fixpoint import_loop (lines : list string) (addr_book : address_book) (id : Z)
  : import_exn + address_book :=
  match lines with
  | [] => inr addr_book
  | line :: lines' =>
      if skipped line then import_loop lines' addr_book id
      else match parse_line line with
           | inl e => inl e
           | inr (add, grp) => import_loop lines' (book_set grp id add addr_book) (id + 1)
           end
  end.

(** [import_addr] on a file read as the list of its lines, each with its
    end of line. *)
Definition import_addr (lines : list string) : import_exn + address_book :=
  import_loop lines [] 0.

(** The lines that are not skipped, in the order of the file. *)
Definition kept (lines : list string) : list string :=
  filter (λ line, skipped line = false) lines.

(** ** [main] *)

Inductive outcome : Type :=
  | Written (rows : list (list cell)) (tr : trace)   (* the rows of the CSV file *)
  | ImportRaised (e : import_exn)
  | Raised (e : exn).

Variable clock : trace → float.
Variable oracle : trace → string → string → option string.

(** [main] on the lines of the input file; [None] only if the loop of
    [get_dist_mat] ran out of passes. *)
Definition main (lines : list string) : option outcome :=
  match import_addr lines with
  | inl e => Some (ImportRaised e)
  | inr addr_book =>
      let job_list := create_jobs addr_book in
      match get_dist_mat clock oracle addr_book job_list with
      | None => None
      | Some (Raise e) => Some (Raised e)
      | Some (Ok (dist_mat, tr)) =>
          match export_result addr_book dist_mat with
          | Raise e => Some (Raised e)
          | Ok rows => Some (Written rows tr)
          end
      end
  end.

End ImportFile.

(** ** Vocabulary and examples for [import_addr] and [main] *)

(** A numeral of ASCII digits with an optional sign, as [int] reads it;
    [None] on anything else (for the examples: [int] accepts more, such as
    blanks around the numeral). *)
Fixpoint digits_value (acc : Z) (s : string) : option Z :=
  match s with
  | EmptyString => Some acc
  | String c s' =>
      let n := Ascii.N_of_ascii c in
      if ((48 <=? n) && (n <=? 57))%N
      then digits_value (10 * acc + Z.of_N (n - 48)) s'
      else None
  end.

Definition int_decimal (s : string) : option Z :=
  match s with
  | EmptyString => None
  | String c EmptyString => digits_value 0 s
  | String c s' =>
      if decide (c = minus_sign) then Z.opp <$> digits_value 0 s'
      else if decide (c = plus_sign) then digits_value 0 s'
      else digits_value 0 s
  end.

(** A line of the address file: address, tab, group, end of line. *)
Definition record (add grp : string) : string :=
  (add ++ String tab (grp ++ String newline EmptyString))%string.

(** A file with a comment, three addresses of group 1, an empty line and
    one address of group 2. *)
Definition file_3_1 : list string :=
  [ "# addresses"%string; record "A" "1"; record "B" "1";
    String newline EmptyString; record "D" "2"; record "C" "1" ].

(** The characters of a string, and the strings made of blanks only. *)
Definition chars (s : string) : list Ascii.ascii := String.list_ascii_of_string s.
Definition blank (s : string) : Prop := Forall (λ c, isspace c = true) (chars s).

(** The address stored under [addr_book[grp][id]], if any. *)
Definition addr_of (addr_book : address_book) (grp id : Z) : option string :=
  dict_get id (default [] (dict_get grp addr_book)).

(** What the loop of [import_addr] keeps true of the book and of the next
    id: the groups have distinct numbers and are not empty, the ids of a
    group go up in the order of insertion, and the ids of the book are the
    numbers below the next id, each once. *)
Definition imported (addr_book : address_book) (id : Z) : Prop :=
  0 ≤ id
  ∧ is_dict addr_book
  ∧ Forall (λ ga, ga.2 ≠ [] ∧ StronglySorted Z.lt (keys ga.2)) addr_book
  ∧ NoDup (all_ids addr_book)
  ∧ ∀ x, x ∈ all_ids addr_book ↔ 0 ≤ x < id.

(** ** Vocabulary for the traces of [get_dist_mat] *)

(** The clock readings, the answers of the service and the lines printed
    so far, oldest first. *)
Definition readings (tr : trace) : list float :=
  omap (λ ev, match ev with EvTime t => Some t | _ => None end) tr.
Definition answers (tr : trace) : list string :=
  omap (λ ev, match ev with EvGet _ _ dist => Some dist | _ => None end) tr.
Definition prints (tr : trace) : list string :=
  omap (λ ev, match ev with EvPrint line => Some line | _ => None end) tr.

(** The field in row [r] and column [c] of the rows written, from 0. *)
Definition table_cell (rows : list (list cell)) (r c : nat) : option cell :=
  rows !! r ≫= λ row, row !! c.

(** ** More closed examples *)

(** The book [import_addr] makes of [file_3_1]: the fourth address joins
    its group after the address of group 2 got its id. *)
Definition book_3_1 : address_book :=
  [(1, [(0, "A"); (1, "B"); (3, "C")]); (2, [(2, "D")])]%string.

(** Two addresses, each alone in its group, and the book made of them. *)
Definition file_lone : list string :=
  [ record "A" "1"; "# no pair here"%string; record "B" "2" ].
Definition book_lone : address_book :=
  [(1, [(0, "A")]); (2, [(1, "B")])]%string.

(** A service that never answers. *)
Definition no_answer : trace → string → string → option string :=
  λ _ _ _, None.

(** The configuration after the first pass of the run over [book_3_2] that
    starts at [epoch_2014]. *)
Definition first_pass_st : sched := after_dispatch init epoch_2014 0 1 "1000".
Definition first_pass_tr : trace := [EvTime epoch_2014; EvGet "A" "B" "1000"].

(** A list whose second job names an id that its group does not have. *)
Definition jobs_unknown_id : list job := [(1, 0, 1); (1, 0, 7)].

(** A matrix with one row, under a key that [book_2_1] does not have. *)
Definition matrix_key_7 : matrix := {[ 7 := {[ 0 := "5"%string ]} ]}.
(** * Properties *)

(** Closed decidable facts are settled by evaluation. *)
Ltac by_evaluation := refine (bool_decide_unpack _ _); vm_compute; exact I.

(** ** 2-combinations *)

Section Combinations.
Context {A : Type}.
Implicit Types (l : list A) (a b : A).

Lemma elem_of_combinations2 l a b :
  (a, b) ∈ combinations2 l → a ∈ l ∧ b ∈ l.
Proof.
  induction l as [|x t IH]; simpl; [by intros ?%elem_of_nil|].
  rewrite elem_of_app, list_elem_of_fmap, !elem_of_cons.
  intros [(y & [= -> ->] & Hy)|Hin]; [by auto|].
  destruct (IH Hin); auto.
Qed.

Lemma combinations2_distinct l a b :
  NoDup l → (a, b) ∈ combinations2 l → a ≠ b.
Proof.
  induction l as [|x t IH]; simpl; [by intros _ ?%elem_of_nil|].
  rewrite NoDup_cons, elem_of_app, list_elem_of_fmap.
  intros [Hx Ht] [(y & [= -> ->] & Hy)|Hin]; [congruence | by apply IH].
Qed.

(** Every two distinct elements are paired, in one order or the other. *)
Lemma combinations2_complete l a b :
  a ∈ l → b ∈ l → a ≠ b → (a, b) ∈ combinations2 l ∨ (b, a) ∈ combinations2 l.
Proof.
  induction l as [|x t IH]; simpl; [by intros ?%elem_of_nil|].
  rewrite !elem_of_cons, !elem_of_app, !list_elem_of_fmap.
  intros [->|Ha] [->|Hb] Hne; [done | left; left; eauto | right; left; eauto |].
  destruct (IH Ha Hb Hne); auto.
Qed.

Lemma combinations2_length_twice l :
  (2 * length (combinations2 l) = length l * (length l - 1))%nat.
Proof.
  induction l as [|x t IH]; simpl; [done|].
  rewrite length_app, length_fmap. nia.
Qed.

Lemma combinations2_length l :
  length (combinations2 l) = choose2 (length l).
Proof.
  unfold choose2. rewrite <- combinations2_length_twice.
  by rewrite Nat.mul_comm, Nat.div_mul.
Qed.

End Combinations.

Lemma unordered_eq (p q : Z * Z) :
  unordered p = unordered q ↔ p = q ∨ p = (q.2, q.1).
Proof.
  destruct p as [a b], q as [c d]; unfold unordered; simpl. split.
  - intros [= Hmin Hmax].
    destruct (decide (a = c)) as [->|]; [left | right]; f_equal; lia.
  - intros [[= -> ->]|[= -> ->]]; f_equal; lia.
Qed.

Lemma unordered_components (p : Z * Z) :
  ((unordered p).1 = p.1 ∧ (unordered p).2 = p.2)
  ∨ ((unordered p).1 = p.2 ∧ (unordered p).2 = p.1).
Proof. destruct p as [a b]; unfold unordered; simpl; lia. Qed.

(** No unordered pair is enumerated twice, in either direction. *)
Lemma combinations2_unordered_NoDup (l : list Z) :
  NoDup l → NoDup (unordered <$> combinations2 l).
Proof.
  induction l as [|x t IH]; simpl; [constructor|].
  rewrite NoDup_cons. intros [Hx Ht].
  rewrite fmap_app, NoDup_app. split_and!.
  - rewrite <- list_fmap_compose. apply NoDup_fmap_2_strong; [|done].
    intros y z _ _ [[= ->]|[= -> ->]]%unordered_eq; done.
  - intros p (q & -> & Hq)%list_elem_of_fmap (r & Hr & Hin)%list_elem_of_fmap.
    apply list_elem_of_fmap in Hq as (y & -> & Hy).
    destruct r as [a b]. apply elem_of_combinations2 in Hin as [Ha Hb].
    apply unordered_eq in Hr as [[= -> ->]|[= -> ->]]; done.
  - by apply IH.
Qed.

(** ** The job generator *)

Lemma foldl_snoc_fmap {A B : Type} (f : A → B) (l : list A) (acc : list B) :
  foldl (λ acc x, acc ++ [f x]) acc l = acc ++ (f <$> l).
Proof.
  revert acc. induction l as [|x l IH]; intros acc; simpl.
  - by rewrite app_nil_r.
  - by rewrite IH, <- app_assoc.
Qed.

(** The two nested loops of [create_jobs] concatenate the jobs of the
    groups, in the order of the book. *)
Lemma create_jobs_bind (book : address_book) :
  create_jobs book = book ≫= group_jobs.
Proof.
  unfold create_jobs.
  enough (∀ acc : list job,
    foldl (λ job_list ga,
             let '(grp, adds) := ga in
             let id_pairs := combinations2 (keys adds) in
             foldl (λ job_list id_pair, job_list ++ [(grp, id_pair.1, id_pair.2)])
                   job_list id_pairs) acc book
    = acc ++ book ≫= group_jobs) as H by apply (H []).
  induction book as [|[grp adds] book IH]; intros acc; simpl foldl.
  - by rewrite app_nil_r.
  - rewrite bind_cons, IH.
    rewrite (foldl_snoc_fmap (λ id_pair : Z * Z, (grp, id_pair.1, id_pair.2))).
    by rewrite <- app_assoc.
Qed.

Lemma elem_of_create_jobs (book : address_book) (g o d : Z) :
  (g, o, d) ∈ create_jobs book ↔
  ∃ adds, (g, adds) ∈ book ∧ (o, d) ∈ combinations2 (keys adds).
Proof.
  rewrite create_jobs_bind, list_elem_of_bind. unfold group_jobs. split.
  - intros ([g' adds] & Hj & Hin). apply list_elem_of_fmap in Hj as ([a b] & [= -> -> ->] & Hp).
    eauto.
  - intros (adds & Hin & Hp). exists (g, adds). split; [|done].
    apply list_elem_of_fmap. by exists (o, d).
Qed.

Lemma dict_get_elem_of {K V : Type} `{EqDecision K} (d : list (K * V)) k v :
  is_dict d → (k, v) ∈ d → dict_get k d = Some v.
Proof.
  unfold is_dict, keys. induction d as [|[k' v'] d IH]; simpl; [by intros _ ?%elem_of_nil|].
  rewrite NoDup_cons, elem_of_cons. intros [Hk Hd] [[= -> ->]|Hin].
  - by rewrite decide_True.
  - rewrite decide_False; [by apply IH|].
    intros ->. apply Hk, list_elem_of_fmap. by exists (k', v).
Qed.

Lemma dict_get_Some {K V : Type} `{EqDecision K} (d : list (K * V)) k v :
  dict_get k d = Some v → (k, v) ∈ d.
Proof.
  induction d as [|[k' v'] d IH]; simpl; [done|].
  case_decide as Hk; [intros [= ->]; subst; left | right; auto].
Qed.

Lemma dict_get_keys {K V : Type} `{EqDecision K} (d : list (K * V)) k :
  k ∈ keys d ↔ is_Some (dict_get k d).
Proof.
  unfold keys. induction d as [|[k' v'] d IH]; simpl.
  - rewrite elem_of_nil. split; [done | by intros [? ?]].
  - rewrite elem_of_cons. case_decide as Hk; [subst; split; eauto|].
    rewrite IH. split; [intros [?|?]; done | auto].
Qed.

Lemma create_jobs_length (book : address_book) :
  length (create_jobs book) = sum_list_with (λ ga, choose2 (length ga.2)) book.
Proof.
  rewrite create_jobs_bind.
  induction book as [|[grp adds] book IH]; [done|].
  rewrite bind_cons, length_app, IH. unfold group_jobs, keys; simpl.
  by rewrite length_fmap, combinations2_length, length_fmap.
Qed.

Lemma pair_of_group_jobs (ga : Z * list (Z * string)) :
  pair_of <$> group_jobs ga = unordered <$> combinations2 (keys ga.2).
Proof.
  unfold group_jobs. rewrite <- list_fmap_compose.
  apply list_fmap_ext. by intros _ [a b] _.
Qed.

Lemma elem_of_group_jobs (ga : Z * list (Z * string)) (j : job) :
  j ∈ group_jobs ga → j.1.1 = ga.1 ∧ j.1.2 ∈ keys ga.2 ∧ j.2 ∈ keys ga.2.
Proof.
  unfold group_jobs. intros ([a b] & -> & Hp)%list_elem_of_fmap.
  apply elem_of_combinations2 in Hp as [? ?]. done.
Qed.

(** Both ids of the unordered pair of a job are ids of the job's group. *)
Lemma pair_of_group_jobs_ids (ga : Z * list (Z * string)) (j : job) :
  j ∈ group_jobs ga → (pair_of j).1 ∈ keys ga.2 ∧ (pair_of j).2 ∈ keys ga.2.
Proof.
  intros (_ & Ho & Hd)%elem_of_group_jobs. unfold pair_of.
  destruct (unordered_components (j.1.2, j.2)) as [[-> ->]|[-> ->]]; done.
Qed.

Lemma group_jobs_pairs_NoDup (ga : Z * list (Z * string)) :
  is_dict ga.2 → NoDup (pair_of <$> group_jobs ga).
Proof. rewrite pair_of_group_jobs. apply combinations2_unordered_NoDup. Qed.

(** Tagging the elements of a duplicate-free image keeps it duplicate-free. *)
Lemma NoDup_fmap_tagged {A B C : Type} (f : A → B) (g : A → C) (l : list A) :
  NoDup (f <$> l) → NoDup ((λ x, (g x, f x)) <$> l).
Proof.
  induction l as [|x l IH]; simpl; [constructor|].
  rewrite !NoDup_cons, !list_elem_of_fmap.
  intros [Hx Hl]. split; [|by apply IH].
  intros (y & [= _ Hf] & Hy). apply Hx. eauto.
Qed.

(** Within its group, no unordered pair has two jobs. *)
Lemma create_jobs_group_pairs_NoDup (book : address_book) :
  addr_book_ok book → NoDup (group_pair_of <$> create_jobs book).
Proof.
  rewrite create_jobs_bind. unfold addr_book_ok, is_dict at 1, keys at 1.
  induction book as [|ga book IH]; [constructor|].
  rewrite bind_cons, fmap_cons, NoDup_cons, Forall_cons, fmap_app, NoDup_app.
  intros [[Hg Hbook] [Hga Hrest]]. split_and!.
  - apply (NoDup_fmap_tagged pair_of), group_jobs_pairs_NoDup, Hga.
  - intros p (j & -> & Hj)%list_elem_of_fmap (j' & Heq & Hj')%list_elem_of_fmap.
    apply elem_of_group_jobs in Hj as (Hg1 & _).
    apply list_elem_of_bind in Hj' as (ga' & Hj' & Hga').
    apply elem_of_group_jobs in Hj' as (Hg2 & _).
    injection Heq as Hgrp _. apply Hg.
    apply list_elem_of_fmap. exists ga'. split; [congruence | done].
  - by apply IH.
Qed.

(** When ids are not shared between groups, no unordered pair of ids has
    two jobs at all. *)
Lemma create_jobs_pairs_NoDup (book : address_book) :
  ids_one_group book → NoDup (pair_of <$> create_jobs book).
Proof.
  rewrite create_jobs_bind. unfold ids_one_group, all_ids.
  induction book as [|ga book IH]; [constructor|].
  rewrite !bind_cons, fmap_app, !NoDup_app.
  intros (Hga & Hdisj & Hrest). split_and!.
  - by apply group_jobs_pairs_NoDup.
  - intros p (j & -> & Hj)%list_elem_of_fmap (j' & Heq & Hj')%list_elem_of_fmap.
    apply pair_of_group_jobs_ids in Hj as [Ho _].
    apply list_elem_of_bind in Hj' as (ga' & Hj' & Hga').
    apply pair_of_group_jobs_ids in Hj' as [Ho' _].
    apply (Hdisj _ Ho), list_elem_of_bind. exists ga'. split; [congruence | done].
  - by apply IH.
Qed.

Lemma ids_one_group_dicts (book : address_book) :
  ids_one_group book → Forall (λ ga, is_dict ga.2) book.
Proof.
  unfold ids_one_group, all_ids. induction book as [|ga book IH]; [constructor|].
  rewrite bind_cons, NoDup_app. intros (Hga & _ & Hrest). constructor; auto.
Qed.

Lemma create_jobs_distinct (book : address_book) (g o d : Z) :
  addr_book_ok book → (g, o, d) ∈ create_jobs book → o ≠ d.
Proof.
  intros [_ Hgroups] (adds & Hin & Hp)%elem_of_create_jobs.
  rewrite Forall_forall in Hgroups. by eapply combinations2_distinct, Hp; apply (Hgroups _ Hin).
Qed.

Lemma create_jobs_ids (book : address_book) (g o d : Z) :
  (g, o, d) ∈ create_jobs book → o ∈ all_ids book ∧ d ∈ all_ids book.
Proof.
  intros (adds & Hin & [Ho Hd]%elem_of_combinations2)%elem_of_create_jobs.
  unfold all_ids. rewrite !list_elem_of_bind. split; by exists (g, adds).
Qed.

(** C1. For an address book whose levels are dictionaries, [create_jobs]
    emits as many jobs as the groups have 2-combinations; the two ids of a
    job differ and are ids of the job's group; within a group no unordered
    pair has two jobs (neither a repetition nor the reverse direction), and
    when every id belongs to one group only no unordered pair of ids has
    two jobs in the whole list. *)
Theorem create_jobs_pairs (book : address_book) :
  addr_book_ok book →
  length (create_jobs book) = sum_list_with (λ ga, choose2 (length ga.2)) book
  ∧ (∀ g o d, (g, o, d) ∈ create_jobs book →
       o ≠ d ∧ ∃ adds, dict_get g book = Some adds ∧ o ∈ keys adds ∧ d ∈ keys adds)
  ∧ NoDup (group_pair_of <$> create_jobs book)
  ∧ (ids_one_group book → NoDup (pair_of <$> create_jobs book)).
Proof.
  intros Hok. split_and!.
  - apply create_jobs_length.
  - intros g o d (adds & Hin & Hp)%elem_of_create_jobs.
    destruct Hok as [Hbook Hgroups].
    rewrite Forall_forall in Hgroups. specialize (Hgroups _ Hin).
    split; [by eapply combinations2_distinct|].
    exists adds. apply elem_of_combinations2 in Hp as [? ?].
    split_and!; [by apply dict_get_elem_of | done | done].
  - by apply create_jobs_group_pairs_NoDup.
  - apply create_jobs_pairs_NoDup.
Qed.

(** The book of three and two addresses: four jobs, no pair twice. *)
Lemma create_jobs_pairs_witness :
  addr_book_ok book_3_2
  ∧ length (create_jobs book_3_2) = 4%nat
  ∧ NoDup (group_pair_of <$> create_jobs book_3_2)
  ∧ NoDup (pair_of <$> create_jobs book_3_2).
Proof.
  assert (addr_book_ok book_3_2) as Hok by (unfold addr_book_ok, is_dict; by_evaluation).
  destruct (create_jobs_pairs book_3_2 Hok) as (Hlen & _ & Hgroup & Hall).
  split_and!; [exact Hok | exact Hlen | exact Hgroup |].
  apply Hall. unfold ids_one_group. by_evaluation.
Defined.

(** C9. The book with the single group 1 holding "A", "B" and "C" under
    ids given in that order yields the three jobs (1, id0, id1),
    (1, id0, id2) and (1, id1, id2), in this order. *)
Theorem create_jobs_scenario_A (id0 id1 id2 : Z) :
  create_jobs [(1, [(id0, "A"); (id1, "B"); (id2, "C")])]%string
  = [(1, id0, id1); (1, id0, id2); (1, id1, id2)].
Proof.
  rewrite create_jobs_bind. unfold group_jobs, keys; simpl.
  reflexivity.
Qed.

(** ** Cells of the matrix *)

Lemma cell_at_set_cell (o d a b : Z) (v : string) (m : matrix) :
  cell_at (set_cell o d v m) a b
  = if decide (a = o ∧ b = d) then Some v else cell_at m a b.
Proof.
  unfold cell_at, set_cell. destruct (decide (a = o)) as [->|Hao].
  - rewrite lookup_insert_eq; simpl. destruct (decide (b = d)) as [->|Hbd].
    + rewrite lookup_insert_eq. by rewrite decide_True.
    + rewrite lookup_insert_ne by done. rewrite decide_False by tauto.
      by destruct (m !! o).
  - rewrite lookup_insert_ne by done. by rewrite decide_False by tauto.
Qed.

Lemma row_set_cell (o d a : Z) (v : string) (m : matrix) :
  is_Some (set_cell o d v m !! a) ↔ a = o ∨ is_Some (m !! a).
Proof.
  unfold set_cell. destruct (decide (a = o)) as [->|Hao].
  - rewrite lookup_insert_eq. split; eauto.
  - rewrite lookup_insert_ne by done. split; [by right | by intros [?|?]].
Qed.

(** The two writes of a dispatch, together. *)
Lemma cell_at_recorded (o d a b : Z) (v : string) (m : matrix) :
  cell_at (set_cell d o v (set_cell o d v m)) a b
  = if decide ((a = o ∧ b = d) ∨ (a = d ∧ b = o)) then Some v else cell_at m a b.
Proof.
  rewrite !cell_at_set_cell. repeat case_decide; try done; tauto.
Qed.

Lemma row_recorded (o d a : Z) (v : string) (m : matrix) :
  is_Some (set_cell d o v (set_cell o d v m) !! a)
  ↔ a = o ∨ a = d ∨ is_Some (m !! a).
Proof. rewrite !row_set_cell. tauto. Qed.

Lemma covers_snoc (jobs : list job) (g o d a b : Z) :
  covers (jobs ++ [(g, o, d)]) a b
  ↔ (a = o ∧ b = d) ∨ (a = d ∧ b = o) ∨ covers jobs a b.
Proof.
  unfold covers. setoid_rewrite elem_of_app. setoid_rewrite list_elem_of_singleton.
  split.
  - intros [g' [[?|[= -> -> ->]]|[?|[= -> -> ->]]]]; eauto 6.
  - intros [[-> ->]|[[-> ->]|[g' [?|?]]]]; eauto 6.
Qed.

Lemma gets_snoc_get (tr : trace) (ori des dist : string) :
  gets (tr ++ [EvGet ori des dist]) = gets tr ++ [(ori, des)].
Proof. unfold gets. by rewrite omap_app. Qed.

Lemma gets_trace_at_dispatch (st : sched) (tr : trace) (t : float) :
  gets (trace_at_dispatch st tr t) = gets tr.
Proof.
  unfold trace_at_dispatch, gets. rewrite !omap_app; simpl.
  destruct (pacing_wait st t); simpl; by rewrite app_nil_r.
Qed.

(** ** One pass of the loop *)

Section Run.
Context (clock : trace → float) (oracle : trace → string → string → option string).
Context (addr_book : address_book) (job_list : list job).

#[local] Abbreviation body := (loop_body clock oracle addr_book job_list).
#[local] Abbreviation request := (request_of addr_book).
#[local] Abbreviation reach := (reachable clock oracle addr_book job_list).
#[local] Abbreviation loop := (while_loop clock oracle addr_book job_list).
#[local] Abbreviation run := (get_dist_mat clock oracle addr_book job_list).
#[local] Abbreviation n_jobs := (num_jobs job_list).

(** The pass, with its monadic plumbing unfolded. *)
Lemma loop_body_unfold (st : sched) (tr : trace) :
  body st tr =
    let current_time := clock tr in
    if quota_reached st && (current_time - last_time st <? day)%float then
      Raise (NameError "wait_time")
    else
      match job_list !! i st with
      | None => Raise IndexError
      | Some (grp, ori_id, des_id) =>
          let adds := default [] (dict_get grp addr_book) in
          match dict_get ori_id adds with
          | None => Raise (KeyError ori_id)
          | Some ori =>
              match dict_get des_id adds with
              | None => Raise (KeyError des_id)
              | Some des =>
                  let tr1 := trace_at_dispatch st tr current_time in
                  match oracle tr1 ori des with
                  | None => Raise OracleError
                  | Some dist =>
                      Ok (after_dispatch st current_time ori_id des_id dist,
                          tr1 ++ [EvGet ori des dist])
                  end
              end
          end
      end.
Proof.
  unfold loop_body, after_dispatch, trace_at_dispatch, pacing_wait,
    pacing_reference, quota_reached.
  unfold mbind, M_bind, time, mret, M_ret, raise; simpl.
  destruct (bool_decide _); simpl;
    [destruct (_ - last_time st <? day)%float; simpl; [done|]|].
  all: destruct (_ <? time_jobs)%float; unfold sleep, job_at; simpl.
  all: destruct (job_list !! i st) as [[[grp ori_id] des_id]|]; simpl; [|done].
  all: unfold query_dist, subscript, mbind, M_bind, mret, M_ret, raise, http_get; simpl.
  all: destruct (dict_get ori_id _); simpl; [|done].
  all: destruct (dict_get des_id _); simpl; [|done].
  all: rewrite <- ?app_assoc; simpl.
  all: destruct (oracle _ _ _); simpl; [|done].
  all: by rewrite <- ?app_assoc.
Qed.

(** What a pass that does not raise has done. *)
Lemma loop_body_Ok (st st' : sched) (tr tr' : trace) :
  body st tr = Ok (st', tr') →
  ∃ grp ori_id des_id ori des dist,
    (quota_reached st = true → (clock tr - last_time st <? day)%float = false)
    ∧ job_list !! i st = Some (grp, ori_id, des_id)
    ∧ request (grp, ori_id, des_id) = Some (ori, des)
    ∧ oracle (trace_at_dispatch st tr (clock tr)) ori des = Some dist
    ∧ st' = after_dispatch st (clock tr) ori_id des_id dist
    ∧ tr' = trace_at_dispatch st tr (clock tr) ++ [EvGet ori des dist].
Proof.
  rewrite loop_body_unfold; cbv zeta.
  destruct (quota_reached st && _) eqn:Hq; [done|].
  destruct (job_list !! i st) as [[[grp ori_id] des_id]|]; [|done].
  destruct (dict_get ori_id _) as [ori|] eqn:Hori; [|done].
  destruct (dict_get des_id _) as [des|] eqn:Hdes; [|done].
  destruct (oracle _ _ _) as [dist|] eqn:Hdist; [|done].
  intros [= <- <-]. exists grp, ori_id, des_id, ori, des, dist. split_and!; try done.
  - intros Hr. rewrite Hr in Hq. done.
  - unfold request_of; simpl. by rewrite Hori, Hdes.
Qed.

(** Induction over the configurations of a run, one dispatch at a time. *)
Lemma reachable_ind (P : sched → trace → Prop) :
  P init [] →
  (∀ st tr grp ori_id des_id ori des dist,
      reach (st, tr) → P st tr →
      (i st < n_jobs)%nat →
      (quota_reached st = true → (clock tr - last_time st <? day)%float = false) →
      job_list !! i st = Some (grp, ori_id, des_id) →
      request (grp, ori_id, des_id) = Some (ori, des) →
      oracle (trace_at_dispatch st tr (clock tr)) ori des = Some dist →
      P (after_dispatch st (clock tr) ori_id des_id dist)
        (trace_at_dispatch st tr (clock tr) ++ [EvGet ori des dist])) →
  ∀ st tr, reach (st, tr) → P st tr.
Proof.
  intros Hinit Hstep.
  enough (∀ c, reach c → P c.1 c.2) as H by (intros st tr; apply (H (st, tr))).
  apply (rtc_ind_r (λ c, P c.1 c.2)); [done|].
  intros [st tr] [st' tr'] Hreach [Hlt Hbody] IH.
  simpl in *. apply loop_body_Ok in Hbody
    as (grp & ori_id & des_id & ori & des & dist & Hq & Hjob & Hreq & Hdist & -> & ->).
  eapply Hstep; eauto.
Qed.

(** The cursor counts the dispatches, and so does the day's counter until
    its first reset. *)
Lemma reachable_counters (st : sched) (tr : trace) :
  reach (st, tr) → (i st ≤ n_jobs)%nat ∧ (num_jobs_day st ≤ i st)%nat.
Proof.
  revert st tr. apply reachable_ind; simpl; [lia|].
  intros st tr grp ori_id des_id ori des dist _ [Hi Hn] Hlt _ _ _ _.
  destruct (quota_reached st); lia.
Qed.

(** The loop follows the steps and stops at the first configuration whose
    cursor is past the list. *)
Lemma while_loop_Ok (fuel : nat) (st st' : sched) (tr tr' : trace) :
  loop fuel st tr = Some (Ok (st', tr')) →
  rtc (step clock oracle addr_book job_list) (st, tr) (st', tr')
  ∧ (n_jobs ≤ i st')%nat.
Proof.
  revert st tr. induction fuel as [|fuel IH]; intros st tr; simpl;
    case_bool_decide as Hlt; try done.
  - intros [= <- <-]. split; [constructor | lia].
  - destruct (body st tr) as [[st1 tr1]|e] eqn:Hbody; [|done].
    intros [Hrtc Hge]%IH. split; [|done].
    eapply rtc_l; [|exact Hrtc]. by split.
  - intros [= <- <-]. split; [constructor | lia].
Qed.

(** [num_jobs - i] passes are always enough. *)
Lemma while_loop_total (fuel : nat) (st : sched) (tr : trace) :
  (n_jobs ≤ i st + fuel)%nat → is_Some (loop fuel st tr).
Proof.
  revert st tr. induction fuel as [|fuel IH]; intros st tr Hfuel; simpl;
    case_bool_decide as Hlt; try (by eauto); [lia|].
  destruct (body st tr) as [[st1 tr1]|e] eqn:Hbody; [|by eauto].
  apply IH. apply loop_body_Ok in Hbody as (?&?&?&?&?&?&_&_&_&_&->&_). simpl. lia.
Qed.

(** A run whose steps never raise is what the loop computes. *)
Lemma while_loop_steps (fuel : nat) (st st' : sched) (tr tr' : trace) :
  rtc (step clock oracle addr_book job_list) (st, tr) (st', tr') →
  (n_jobs ≤ i st')%nat → (n_jobs ≤ i st + fuel)%nat →
  loop fuel st tr = Some (Ok (st', tr')).
Proof.
  intros Hrtc Hdone. revert fuel.
  remember (st, tr) as c eqn:Hc. remember (st', tr') as c' eqn:Hc'.
  revert st tr Hc. induction Hrtc as [c|c [st1 tr1] c' [Hlt Hbody] Hrtc IH];
    intros st tr -> fuel Hfuel; subst.
  - injection Hc' as <- <-. destruct fuel; simpl; by rewrite bool_decide_false by lia.
  - simpl in *. destruct fuel as [|fuel]; [lia|]. simpl.
    rewrite bool_decide_true by done. rewrite Hbody.
    apply IH; [done..|].
    apply loop_body_Ok in Hbody as (?&?&?&?&?&?&_&_&_&_&->&_). simpl. lia.
Qed.

(** [get_dist_mat] always comes back, with a matrix or an exception. *)
Lemma get_dist_mat_total : is_Some run.
Proof.
  unfold get_dist_mat.
  destruct (while_loop_total n_jobs init []) as [[[st tr]|e] ->]; simpl; eauto; lia.
Qed.

(** It returns a matrix exactly when the run reaches the end of the list,
    and the matrix is the one accumulated there. *)
Lemma get_dist_mat_Ok (m : matrix) (tr : trace) :
  run = Some (Ok (m, tr)) ↔
  ∃ st tr0, reach (st, tr0) ∧ i st = n_jobs ∧ m = dist_mat st
            ∧ tr = tr0 ++ [EvPrint "Finish querying!"].
Proof.
  unfold get_dist_mat. split.
  - destruct (loop n_jobs init []) as [[[st tr0]|e]|] eqn:Hloop; try done.
    intros [= <- <-]. apply while_loop_Ok in Hloop as [Hrtc Hge].
    exists st, tr0. split_and!; try done.
    apply reachable_counters in Hrtc. simpl in Hrtc. lia.
  - intros (st & tr0 & Hreach & Hi & -> & ->).
    rewrite (while_loop_steps n_jobs init st [] tr0); [done | done | lia | simpl; lia].
Qed.

(** The matrix holds the cells of the jobs dispatched so far, both ways. *)
Lemma reachable_matrix (st : sched) (tr : trace) :
  reach (st, tr) →
  symmetric (dist_mat st)
  ∧ (∀ a b, is_Some (cell_at (dist_mat st) a b) ↔ covers (take (i st) job_list) a b)
  ∧ (∀ a, is_Some (dist_mat st !! a) ↔ ∃ b, is_Some (cell_at (dist_mat st) a b)).
Proof.
  revert st tr. apply reachable_ind; simpl.
  - split_and!.
    + done.
    + intros a b. unfold cell_at, covers. rewrite lookup_empty; simpl. split.
      * by intros [? ?].
      * intros [g [H|H]]; by apply elem_of_nil in H.
    + intros a. rewrite lookup_empty. split; [by intros [? ?]|].
      intros [b Hb]. unfold cell_at in Hb. rewrite lookup_empty in Hb. by destruct Hb.
  - intros st tr grp o d ori des dist _ (Hsym & Hcells & Hrows) Hlt _ Hjob _ _.
    rewrite (take_S_r _ _ _ Hjob). split_and!.
    + intros a b. rewrite !cell_at_recorded.
      repeat case_decide; first [done | tauto].
    + intros a b. rewrite cell_at_recorded, covers_snoc, <- Hcells.
      case_decide as Hab; [split; [tauto | eauto] | tauto].
    + intros a. rewrite row_recorded, Hrows. split.
      * intros [->|[->|[b Hb]]].
        -- exists d. rewrite cell_at_recorded, decide_True by tauto. eauto.
        -- exists o. rewrite cell_at_recorded, decide_True by tauto. eauto.
        -- exists b. rewrite cell_at_recorded. case_decide; eauto.
      * intros [b Hb]. rewrite cell_at_recorded in Hb.
        case_decide as Hab; [tauto | eauto].
Qed.

(** The requests sent so far are those of the jobs before the cursor, in
    the order of the list. *)
Lemma reachable_gets (st : sched) (tr : trace) :
  reach (st, tr) →
  Forall2 (λ j r, request j = Some r) (take (i st) job_list) (gets tr).
Proof.
  revert st tr. apply reachable_ind; simpl; [constructor|].
  intros st tr grp o d ori des dist _ IH Hlt _ Hjob Hreq _.
  rewrite (take_S_r _ _ _ Hjob), gets_snoc_get, gets_trace_at_dispatch.
  apply Forall2_app; [done|]. by repeat constructor.
Qed.

(** Every value in the matrix is an answer the service gave. *)
Lemma reachable_values (st : sched) (tr : trace) :
  reach (st, tr) →
  ∀ a b v, cell_at (dist_mat st) a b = Some v →
           ∃ tr0 ori des, oracle tr0 ori des = Some v.
Proof.
  revert st tr.
  apply (reachable_ind (λ st _, ∀ a b v, cell_at (dist_mat st) a b = Some v →
                                  ∃ tr0 ori des, oracle tr0 ori des = Some v)); simpl.
  - intros a b v. unfold cell_at. by rewrite lookup_empty.
  - intros st tr grp o d ori des dist _ IH _ _ _ _ Hdist a b v.
    rewrite cell_at_recorded. case_decide; [intros [= <-]; eauto | apply IH].
Qed.

(** C2. At every head of the loop, hence after each job is recorded, the
    matrix is symmetric and each job dispatched so far has its two cells,
    holding one value; the matrix a completed run returns is symmetric and
    has the two equal cells of every job of the list. *)
Theorem dist_mat_symmetric :
  (∀ st tr, reach (st, tr) →
     symmetric (dist_mat st)
     ∧ ∀ g o d, (g, o, d) ∈ take (i st) job_list →
         ∃ v, cell_at (dist_mat st) o d = Some v ∧ cell_at (dist_mat st) d o = Some v)
  ∧ (∀ m tr, run = Some (Ok (m, tr)) →
     symmetric m
     ∧ ∀ g o d, (g, o, d) ∈ job_list →
         ∃ v, cell_at m o d = Some v ∧ cell_at m d o = Some v).
Proof.
  assert (∀ st tr, reach (st, tr) →
     symmetric (dist_mat st)
     ∧ ∀ g o d, (g, o, d) ∈ take (i st) job_list →
         ∃ v, cell_at (dist_mat st) o d = Some v ∧ cell_at (dist_mat st) d o = Some v)
    as Hreach.
  { intros st tr (Hsym & Hcells & _)%reachable_matrix. split; [done|].
    intros g o d Hin.
    destruct (proj2 (Hcells o d)) as [v Hv]; [exists g; by left|].
    exists v. split; [done|]. by rewrite <- Hsym. }
  split; [done|].
  intros m tr (st & tr0 & Hst & Hi & -> & _)%get_dist_mat_Ok.
  destruct (Hreach _ _ Hst) as [Hsym Hjobs]. split; [done|].
  intros g o d Hin. apply (Hjobs g). by rewrite Hi, take_ge.
Qed.

(** C6. A pass that dispatches leaves in [last_time] the reading of the
    clock made at its start, before the wait and the request; it counts
    one more query of the day (from zero after a roll-over) and moves the
    cursor by one; its request is that of the job under the cursor. So the
    requests of a run are those of the jobs in the order of the list. The
    run always ends, and it returns a matrix exactly when the cursor has
    reached the end of the list: the matrix accumulated until then. *)
Theorem dispatch_bookkeeping :
  (∀ st tr st' tr', body st tr = Ok (st', tr') →
     last_time st' = clock tr
     ∧ num_jobs_day st' = S (if quota_reached st then 0 else num_jobs_day st)
     ∧ i st' = S (i st)
     ∧ ∃ j r dist, job_list !! i st = Some j ∧ request j = Some r
         ∧ tr' = trace_at_dispatch st tr (clock tr) ++ [EvGet r.1 r.2 dist]
         ∧ gets tr' = gets tr ++ [r]
         ∧ dist_mat st' = set_cell j.2 j.1.2 dist (set_cell j.1.2 j.2 dist (dist_mat st)))
  ∧ (∀ st tr, reach (st, tr) →
       Forall2 (λ j r, request j = Some r) (take (i st) job_list) (gets tr))
  ∧ is_Some run
  ∧ (∀ m tr, run = Some (Ok (m, tr)) ↔
       ∃ st tr0, reach (st, tr0) ∧ i st = n_jobs ∧ m = dist_mat st
                 ∧ tr = tr0 ++ [EvPrint "Finish querying!"])
  ∧ (∀ m tr, run = Some (Ok (m, tr)) →
       Forall2 (λ j r, request j = Some r) job_list (gets tr)).
Proof.
  split_and!.
  - intros st tr st' tr'
      (grp & o & d & ori & des & dist & _ & Hjob & Hreq & _ & -> & ->)%loop_body_Ok.
    split_and!; try done.
    exists (grp, o, d), (ori, des), dist. simpl. split_and!; try done.
    by rewrite gets_snoc_get, gets_trace_at_dispatch.
  - apply reachable_gets.
  - apply get_dist_mat_total.
  - apply get_dist_mat_Ok.
  - intros m tr (st & tr0 & Hst & Hi & _ & ->)%get_dist_mat_Ok.
    apply reachable_gets in Hst. rewrite Hi, take_ge in Hst by done.
    unfold gets. rewrite omap_app; simpl. by rewrite app_nil_r.
Qed.

(** When the day's count has reached the maximum less than a day after the
    last dispatch, the pass ends with [NameError]: nothing waits, and the
    loop is left. *)
Lemma quota_wait_raises (st : sched) (tr : trace) :
  quota_reached st = true →
  (clock tr - last_time st <? day)%float = true →
  body st tr = Raise (NameError "wait_time").
Proof. intros Hq Hlt. rewrite loop_body_unfold; cbv zeta. by rewrite Hq, Hlt. Qed.

(** C4, as the code has it. In a pass made below the day's maximum, when
    the time since the last dispatch is less than [time_jobs] the scheduler
    sleeps once, for the whole of [time_jobs], and then sends the request
    whatever time has passed. *)
Theorem pacing_wait_full_interval (st : sched) (tr : trace)
    (grp ori_id des_id : Z) (ori des : string) :
  quota_reached st = false →
  (clock tr - last_time st <? time_jobs)%float = true →
  job_list !! i st = Some (grp, ori_id, des_id) →
  request (grp, ori_id, des_id) = Some (ori, des) →
  let tr1 := tr ++ [EvTime (clock tr); EvSleep time_jobs] in
  body st tr =
    match oracle tr1 ori des with
    | Some dist => Ok (after_dispatch st (clock tr) ori_id des_id dist,
                       tr1 ++ [EvGet ori des dist])
    | None => Raise OracleError
    end.
Proof.
  intros Hq Hlt Hjob Hreq. rewrite loop_body_unfold; cbv zeta.
  unfold request_of in Hreq; simpl in Hreq.
  rewrite Hq, Hjob; simpl.
  destruct (dict_get ori_id _) as [ori'|]; [|done]. simpl in Hreq.
  destruct (dict_get des_id _) as [des'|]; [|done]. injection Hreq as -> ->.
  unfold trace_at_dispatch, pacing_wait, pacing_reference. by rewrite Hq, Hlt.
Qed.



(** A pass made below the day's maximum dispatches, when the ids of the
    job resolve and the service answers. *)
Lemma loop_body_progress (st : sched) (tr : trace) :
  (∀ j, j ∈ job_list → is_Some (request j)) →
  (∀ tr0 ori des, is_Some (oracle tr0 ori des)) →
  (i st < n_jobs)%nat → quota_reached st = false →
  ∃ c, body st tr = Ok c.
Proof.
  intros Hreq Horacle Hlt Hq. rewrite loop_body_unfold; cbv zeta. rewrite Hq; simpl.
  destruct (lookup_lt_is_Some_2 job_list (i st) Hlt) as [[[grp o] d] Hjob].
  rewrite Hjob. destruct (Hreq _ (list_elem_of_lookup_2 _ _ _ Hjob)) as [[ori des] Hr].
  unfold request_of in Hr; simpl in Hr.
  destruct (dict_get o _) as [ori'|]; [|done]. simpl in Hr.
  destruct (dict_get d _) as [des'|]; [|done].
  destruct (Horacle (trace_at_dispatch st tr (clock tr)) ori' des') as [dist ->]. eauto.
Qed.

(** With at most [max_jobs_day] jobs whose ids resolve and a service that
    always answers, the run returns a matrix. *)
Lemma run_completes :
  (∀ j, j ∈ job_list → is_Some (request j)) →
  (∀ tr0 ori des, is_Some (oracle tr0 ori des)) →
  (n_jobs ≤ max_jobs_day)%nat →
  ∃ m tr, run = Some (Ok (m, tr)).
Proof.
  intros Hreq Horacle Hmax.
  enough (∀ fuel st tr, reach (st, tr) → (n_jobs ≤ i st + fuel)%nat →
            ∃ c, loop fuel st tr = Some (Ok c)) as Hloop.
  { destruct (Hloop n_jobs init []) as [[st tr] Hrun]; [constructor | simpl; lia |].
    unfold get_dist_mat. rewrite Hrun. eauto. }
  induction fuel as [|fuel IH]; intros st tr Hst Hfuel; simpl;
    case_bool_decide as Hlt; try (by eauto); [lia|].
  destruct (reachable_counters _ _ Hst) as [_ Hday].
  destruct (loop_body_progress st tr) as [[st' tr'] Hbody]; try done.
  { unfold quota_reached. apply bool_decide_eq_false. lia. }
  rewrite Hbody. apply IH.
  - eapply rtc_r; [exact Hst | by split].
  - apply loop_body_Ok in Hbody as (?&?&?&?&?&?&_&_&_&_&->&_). simpl. lia.
Qed.

(** The configurations computed by [passes] are configurations of the run. *)
Lemma passes_reachable (n : nat) (c : sched * trace) :
  passes clock oracle addr_book job_list n (init, []) = Some c → reach c.
Proof.
  unfold reachable. generalize (init, @nil event).
  induction n as [|n IH]; intros c0; simpl; [intros [= ->]; constructor|].
  case_bool_decide as Hlt; [|done].
  destruct (body c0.1 c0.2) as [c1|e] eqn:Hbody; [|done].
  intros Hc. eapply rtc_l; [|by apply IH]. by split.
Qed.

(** The rows and cells of the matrix a run returns are those of the jobs
    of the list. *)
Lemma run_matrix_shape (m : matrix) (tr : trace) :
  run = Some (Ok (m, tr)) →
  (∀ o d, is_Some (cell_at m o d) ↔ covers job_list o d)
  ∧ (∀ o, is_Some (m !! o) ↔ ∃ d, covers job_list o d).
Proof.
  intros (st & tr0 & Hst & Hi & -> & _)%get_dist_mat_Ok.
  destruct (reachable_matrix _ _ Hst) as (_ & Hcells & Hrows).
  rewrite Hi in Hcells. unfold num_jobs in Hcells. rewrite take_ge in Hcells by done.
  split; [done|]. intros o. rewrite Hrows. by setoid_rewrite Hcells.
Qed.

(** A pass that raises ends the run with its exception. *)
Lemma while_loop_raise (fuel : nat) (st st' : sched) (tr tr' : trace) (e : exn) :
  rtc (step clock oracle addr_book job_list) (st, tr) (st', tr') →
  (i st' < n_jobs)%nat → body st' tr' = Raise e → (n_jobs ≤ i st + fuel)%nat →
  loop fuel st tr = Some (Raise e).
Proof.
  intros Hrtc Hlt' Hraise. revert fuel.
  remember (st, tr) as c eqn:Hc. remember (st', tr') as c' eqn:Hc'.
  revert st tr Hc. induction Hrtc as [c|c [st1 tr1] c' [Hlt Hbody] Hrtc IH];
    intros st tr -> fuel Hfuel; subst.
  - injection Hc' as <- <-. destruct fuel as [|fuel]; [lia|]. simpl.
    by rewrite bool_decide_true, Hraise by done.
  - simpl in *. destruct fuel as [|fuel]; [lia|]. simpl.
    rewrite bool_decide_true by done. rewrite Hbody.
    apply IH; [done..|].
    apply loop_body_Ok in Hbody as (?&?&?&?&?&?&_&_&_&_&->&_). simpl. lia.
Qed.

Lemma run_raises (st : sched) (tr : trace) (e : exn) :
  reach (st, tr) → (i st < n_jobs)%nat → body st tr = Raise e →
  run = Some (Raise e).
Proof.
  intros Hst Hlt Hraise. unfold get_dist_mat.
  rewrite (while_loop_raise n_jobs init st [] tr e); [done | done | done | done |].
  simpl. lia.
Qed.

End Run.

(** ** Runs under a clock that counts the requests *)

Section Counting.
Context (ticks : nat → float) (oracle : trace → string → string → option string).
Context (addr_book : address_book) (job_list : list job).
Hypothesis resolvable : ∀ j, j ∈ job_list → is_Some (request_of addr_book j).
Hypothesis answers : ∀ tr ori des, is_Some (oracle tr ori des).

#[local] Abbreviation cclock := (counting_clock ticks).
#[local] Abbreviation creach := (reachable cclock oracle addr_book job_list).

(** Below the day's maximum the run goes on: after [n] passes the cursor
    and the day's count are [n], and [last_time] is the reading made when
    [n - 1] requests had been answered. *)
Lemma counting_reach (n : nat) :
  (n ≤ num_jobs job_list)%nat → (n ≤ max_jobs_day)%nat →
  ∃ st tr, creach (st, tr) ∧ i st = n ∧ num_jobs_day st = n
           ∧ length (gets tr) = n
           ∧ ∀ k, n = S k → last_time st = ticks k.
Proof.
  induction n as [|n IH]; intros Hjobs Hmax.
  - exists init, []. split_and!; try done. constructor.
  - destruct IH as (st & tr & Hst & Hi & Hday & Hgets & _); [lia..|].
    assert (quota_reached st = false) as Hq
      by (unfold quota_reached; apply bool_decide_eq_false; lia).
    destruct (loop_body_progress cclock oracle addr_book job_list st tr)
      as [[st' tr'] Hbody]; try done; [lia|].
    exists st', tr'. split.
    { eapply rtc_r; [exact Hst|]. split; [simpl; lia | done]. }
    apply loop_body_Ok in Hbody as (grp & o & d & ori & des & dist & _ & _ & _ & _ & -> & ->).
    simpl. rewrite Hq, gets_snoc_get, gets_trace_at_dispatch, length_app. simpl.
    split_and!; try lia.
    intros k [= <-]. unfold counting_clock. by rewrite Hgets.
Qed.

(** The configuration at which the day's count first reaches its maximum. *)
Lemma counting_quota_reached :
  (max_jobs_day ≤ num_jobs job_list)%nat →
  ∃ st tr, creach (st, tr) ∧ i st = max_jobs_day ∧ quota_reached st = true
           ∧ last_time st = ticks (pred max_jobs_day)
           ∧ cclock tr = ticks max_jobs_day.
Proof.
  intros Hjobs.
  destruct (counting_reach max_jobs_day) as (st & tr & Hst & Hi & Hday & Hgets & Hlast);
    [done..|].
  exists st, tr. split_and!; try done.
  - unfold quota_reached. apply bool_decide_eq_true. lia.
  - by apply Hlast.
  - unfold counting_clock. by rewrite Hgets.
Qed.

(** With more than [max_jobs_day] jobs, and less than a day between the
    readings around the request that exhausts the quota, the run ends with
    [NameError]. *)
Lemma counting_quota_raises :
  (max_jobs_day < num_jobs job_list)%nat →
  (ticks max_jobs_day - ticks (pred max_jobs_day) <? day)%float = true →
  get_dist_mat cclock oracle addr_book job_list = Some (Raise (NameError "wait_time")).
Proof.
  intros Hjobs Hday.
  destruct counting_quota_reached as (st & tr & Hst & Hi & Hq & Hlast & Hclock); [lia|].
  apply (run_raises _ _ _ _ st tr); [done | lia |].
  apply quota_wait_raises; [done|]. by rewrite Hclock, Hlast.
Qed.

End Counting.

(** ** Runs over the jobs of an address book *)

Lemma combinations2_two {A : Type} (l : list A) (a b : A) :
  (a, b) ∈ combinations2 l → (2 ≤ length l)%nat.
Proof.
  destruct l as [|x [|y l]]; simpl; [by intros ?%elem_of_nil.. | lia].
Qed.

Lemma covers_create_jobs (book : address_book) (g o d : Z) (adds : list (Z * string)) :
  (g, adds) ∈ book → o ∈ keys adds → d ∈ keys adds → o ≠ d →
  covers (create_jobs book) o d.
Proof.
  intros Hin Ho Hd Hne. exists g. rewrite !elem_of_create_jobs.
  destruct (combinations2_complete _ _ _ Ho Hd Hne); eauto.
Qed.

Lemma mentions_covers (jobs : list job) (o : Z) :
  mentions jobs o ↔ ∃ d, covers jobs o d.
Proof.
  unfold mentions, covers. split.
  - intros (g & a & b & Hin & [->| ->]); eauto.
  - intros (d & g & [Hin|Hin]); eauto 7.
Qed.

(** The ids of the jobs of a well-formed book resolve in it. *)
Lemma request_of_create_jobs (book : address_book) (j : job) :
  addr_book_ok book → j ∈ create_jobs book → is_Some (request_of book j).
Proof.
  destruct j as [[g o] d]. intros [Hbook Hgroups] (adds & Hin & Hp)%elem_of_create_jobs.
  apply elem_of_combinations2 in Hp as [Ho Hd].
  unfold request_of; simpl. rewrite (dict_get_elem_of _ _ _ Hbook Hin); simpl.
  apply dict_get_keys in Ho as [ori ->], Hd as [des ->]. simpl. eauto.
Qed.

(** An id that belongs to one group only is found in one entry of the book. *)
Lemma ids_one_group_unique (book : address_book) (ga ga' : Z * list (Z * string)) (o : Z) :
  ids_one_group book → ga ∈ book → ga' ∈ book →
  o ∈ keys ga.2 → o ∈ keys ga'.2 → ga = ga'.
Proof.
  unfold ids_one_group, all_ids. induction book as [|gb book IH]; [by intros _ ?%elem_of_nil|].
  rewrite bind_cons, NoDup_app, !elem_of_cons.
  intros (_ & Hdisj & Hrest) [->|Hga] [->|Hga'] Ho Ho'; [done | | | by apply IH].
  - destruct (Hdisj _ Ho). apply list_elem_of_bind. eauto.
  - destruct (Hdisj _ Ho'). apply list_elem_of_bind. eauto.
Qed.

(** With at most [max_jobs_day] jobs and a service that always answers,
    the run over the jobs of a well-formed book returns a matrix. *)
Theorem get_dist_mat_completes (clock : trace → float)
    (oracle : trace → string → string → option string) (book : address_book) :
  addr_book_ok book →
  (∀ tr ori des, is_Some (oracle tr ori des)) →
  (length (create_jobs book) ≤ max_jobs_day)%nat →
  ∃ m tr, get_dist_mat clock oracle book (create_jobs book) = Some (Ok (m, tr)).
Proof.
  intros Hok Horacle Hmax. apply run_completes; [|done..].
  intros j. by apply request_of_create_jobs.
Qed.

(** C8. When the service answers [V] to every request, the matrix returned
    by a run over the jobs of the book has, for every two distinct ids of
    one group, both cells, and both hold [V]. *)
Theorem constant_oracle_matrix (clock : trace → float)
    (oracle : trace → string → string → option string) (book : address_book)
    (V : string) (m : matrix) (tr : trace) :
  (∀ tr0 ori des, oracle tr0 ori des = Some V) →
  get_dist_mat clock oracle book (create_jobs book) = Some (Ok (m, tr)) →
  ∀ g adds o d, (g, adds) ∈ book → o ∈ keys adds → d ∈ keys adds → o ≠ d →
    cell_at m o d = Some V ∧ cell_at m d o = Some V ∧ cell_at m o d = cell_at m d o.
Proof.
  intros Horacle (st & tr0 & Hst & Hi & -> & _)%get_dist_mat_Ok g adds o d Hin Ho Hd Hne.
  destruct (reachable_matrix _ _ _ _ _ _ Hst) as (Hsym & Hcells & _).
  pose proof (reachable_values _ _ _ _ _ _ Hst) as Hvalues.
  rewrite Hi in Hcells. unfold num_jobs in Hcells. rewrite take_ge in Hcells by done.
  destruct (proj2 (Hcells o d)) as [v Hv]; [by eapply covers_create_jobs|].
  destruct (Hvalues _ _ _ Hv) as (tr1 & ori & des & Hans).
  rewrite Horacle in Hans. injection Hans as <-.
  by rewrite <- (Hsym o d), Hv.
Qed.

(** The keys of the matrix of a run over the jobs of a book are ids of
    the book. *)
Lemma get_dist_mat_keys_ids (clock : trace → float)
    (oracle : trace → string → string → option string) (book : address_book)
    (m : matrix) (tr : trace) :
  get_dist_mat clock oracle book (create_jobs book) = Some (Ok (m, tr)) →
  ∀ o, is_Some (m !! o) → o ∈ all_ids book.
Proof.
  intros [_ Hrows]%run_matrix_shape o (d & g & Hin)%Hrows.
  destruct Hin as [Hin|Hin]; apply create_jobs_ids in Hin; tauto.
Qed.

(** C10. For a well-formed book and a run over its jobs: no configuration
    of the run has a cell on the diagonal; in the matrix returned, no row
    has an entry for its own id, the rows are those of the ids that are
    origin or destination of a job, and the cells those of the unordered
    pairs of the jobs; when every id belongs to one group only, the id of a
    group of one address has no row and is in no row. *)
Theorem matrix_keys_are_job_ids (clock : trace → float)
    (oracle : trace → string → string → option string) (book : address_book) :
  addr_book_ok book →
  (∀ st tr, reachable clock oracle book (create_jobs book) (st, tr) →
     ∀ o, cell_at (dist_mat st) o o = None)
  ∧ (∀ m tr, get_dist_mat clock oracle book (create_jobs book) = Some (Ok (m, tr)) →
     (∀ o row, m !! o = Some row → row !! o = None)
     ∧ (∀ o, is_Some (m !! o) ↔ mentions (create_jobs book) o)
     ∧ (∀ o d, is_Some (cell_at m o d) ↔ covers (create_jobs book) o d)
     ∧ (ids_one_group book → ∀ g o a, (g, [(o, a)]) ∈ book →
          m !! o = None ∧ ∀ o', cell_at m o' o = None)).
Proof.
  intros Hok.
  assert (∀ n o, ¬ covers (take n (create_jobs book)) o o) as Hdiag.
  { intros n o [g Hin].
    assert ((g, o, o) ∈ create_jobs book) as Hjob
      by (destruct Hin as [Hin|Hin];
          by apply elem_of_take in Hin as (k & ?%list_elem_of_lookup_2 & _)).
    by apply create_jobs_distinct in Hjob. }
  split.
  { intros st tr (_ & Hcells & _)%reachable_matrix o.
    apply eq_None_not_Some. rewrite Hcells. apply Hdiag. }
  intros m tr Hrun. destruct (run_matrix_shape _ _ _ _ _ _ Hrun) as [Hcells Hrows].
  assert (∀ o, is_Some (m !! o) ↔ mentions (create_jobs book) o) as Hkeys
    by (intros o; by rewrite Hrows, mentions_covers).
  split_and!; try done.
  - intros o row Hrow. apply eq_None_not_Some. intros Hsome.
    apply (Hdiag (length (create_jobs book)) o). rewrite take_ge by done.
    apply Hcells. unfold cell_at. by rewrite Hrow.
  - intros Hone g o a Hin.
    assert (¬ mentions (create_jobs book) o) as Hno.
    { intros (g' & x & y & (adds & Hin' & Hp)%elem_of_create_jobs & Hxy).
      pose proof (combinations2_two _ _ _ Hp) as Hlen.
      apply elem_of_combinations2 in Hp as [Hx Hy].
      assert (o ∈ keys adds) as Ho by (by destruct Hxy as [->| ->]).
      assert ((g, [(o, a)]) = (g', adds)) as [= _ <-].
      { apply (ids_one_group_unique book _ _ o); try done. simpl. by left. }
      unfold keys in Hlen. simpl in Hlen. lia. }
    split.
    + apply eq_None_not_Some. by rewrite Hkeys.
    + intros o'. apply eq_None_not_Some. rewrite Hcells.
      intros Hc. apply Hno, mentions_covers. exists o'.
      destruct Hc as [g' [?|?]]; exists g'; eauto.
Qed.

(** ** The exporter *)

Lemma keys_entries (book : address_book) : keys (entries book) = all_ids book.
Proof.
  unfold keys, entries, all_ids. induction book as [|ga book IH]; [done|].
  by rewrite !bind_cons, fmap_app, IH.
Qed.



Lemma build_addr_name_entries (book : address_book) :
  build_addr_name book
  = foldl (λ addr_name ia, <[ia.1 := ia.2]> addr_name) ∅ (entries book).
Proof.
  unfold build_addr_name, entries. generalize (∅ : gmap Z string).
  induction book as [|ga book IH]; intros acc; simpl; [done|].
  by rewrite foldl_app, IH.
Qed.


Lemma mapM_result_Ok {A B : Type} (f : A → result B) (l : list A) (g : A → B) :
  (∀ x, x ∈ l → f x = Ok (g x)) → mapM f l = Ok (g <$> l).
Proof.
  induction l as [|x l IH]; intros Hf; simpl; [done|].
  rewrite (Hf x) by left. simpl. rewrite IH by (intros; apply Hf; by right). done.
Qed.

Lemma get_or_zero_cell_at (m : matrix) (o d : Z) :
  get_or_zero m o d = match cell_at m o d with Some v => CStr v | None => CInt 0 end.
Proof. unfold get_or_zero, cell_at. destruct (m !! o); simpl; [done|]. by rewrite lookup_empty. Qed.

Lemma elem_of_sorted_keys (m : matrix) (o : Z) :
  o ∈ sorted_keys m ↔ is_Some (m !! o).
Proof.
  unfold sorted_keys. rewrite merge_sort_Permutation, list_elem_of_fmap. split.
  - intros ([o' row] & -> & Hin%elem_of_map_to_list). eauto.
  - intros [row Hrow]. exists (o, row). by rewrite elem_of_map_to_list.
Qed.

Lemma sorted_keys_ascending (m : matrix) : Sorted Z.lt (sorted_keys m).
Proof.
  assert (NoDup (sorted_keys m)) as Hnd.
  { unfold sorted_keys. rewrite merge_sort_Permutation. apply NoDup_fst_map_to_list. }
  assert (StronglySorted Z.le (sorted_keys m)) as Hle
    by apply (StronglySorted_merge_sort Z.le).
  induction Hle as [|x l Hl IH Hx]; [constructor|].
  apply NoDup_cons in Hnd as [Hnin Hnd]. constructor; [by apply IH|].
  destruct l as [|y l]; constructor.
  apply Forall_cons in Hx as [Hxy _].
  assert (x ≠ y) by (intros ->; apply Hnin; left). lia.
Qed.


(** ** Closed runs in the simulated world *)

(** The run over the book of three and two addresses returns a symmetric
    matrix that has both cells of the job (1, 0, 2). *)
Lemma dist_mat_symmetric_witness :
  ∃ m tr,
    get_dist_mat (sim_clock epoch_2014 slow) (const_oracle "1000")
                 book_3_2 (create_jobs book_3_2) = Some (Ok (m, tr))
    ∧ symmetric m
    ∧ ∃ v, cell_at m 0 2 = Some v ∧ cell_at m 2 0 = Some v.
Proof.
  destruct (get_dist_mat_completes (sim_clock epoch_2014 slow) (const_oracle "1000")
              book_3_2) as (m & tr & Hrun).
  { unfold addr_book_ok, is_dict. by_evaluation. }
  { intros tr ori des. by exists "1000". }
  { vm_compute. lia. }
  exists m, tr. split; [exact Hrun|].
  destruct (dist_mat_symmetric (sim_clock epoch_2014 slow) (const_oracle "1000")
              book_3_2 (create_jobs book_3_2)) as [_ Hfinal].
  destruct (Hfinal m tr Hrun) as [Hsym Hjobs].
  split; [exact Hsym|]. apply (Hjobs 1). by_evaluation.
Defined.

(** The requests of that run are those of its jobs, in order. *)
Lemma dispatch_bookkeeping_witness :
  ∃ m tr,
    get_dist_mat (sim_clock epoch_2014 slow) (const_oracle "1000")
                 book_3_2 (create_jobs book_3_2) = Some (Ok (m, tr))
    ∧ Forall2 (λ j r, request_of book_3_2 j = Some r) (create_jobs book_3_2) (gets tr).
Proof.
  destruct (get_dist_mat_completes (sim_clock epoch_2014 slow) (const_oracle "1000")
              book_3_2) as (m & tr & Hrun).
  { unfold addr_book_ok, is_dict. by_evaluation. }
  { intros tr ori des. by exists "1000". }
  { vm_compute. lia. }
  exists m, tr. split; [exact Hrun|].
  destruct (dispatch_bookkeeping (sim_clock epoch_2014 slow) (const_oracle "1000")
              book_3_2 (create_jobs book_3_2)) as (_ & _ & _ & _ & Horder).
  exact (Horder m tr Hrun).
Defined.

(** The run over the book of three and two addresses, in full. *)
Lemma run_book_3_2 :
  ∃ m,
    get_dist_mat (sim_clock epoch_2014 slow) (const_oracle "1000")
                 book_3_2 (create_jobs book_3_2)
    = Some (Ok (m,
        [EvTime 1411862400; EvGet "A" "B" "1000";
         EvTime 1411862400.125; EvGet "A" "C" "1000";
         EvTime 1411862400.25; EvGet "B" "C" "1000";
         EvTime 1411862400.375; EvGet "D" "E" "1000";
         EvPrint "Finish querying!"])).
Proof. eexists. vm_compute. reflexivity. Qed.

Lemma book_72_ok : addr_book_ok book_72.
Proof. unfold addr_book_ok, is_dict. by_evaluation. Qed.

Lemma book_72_jobs : length (create_jobs book_72) = 2556%nat.
Proof. rewrite create_jobs_length. vm_compute. reflexivity. Qed.


(** C3, on the code. With 72 addresses in one group there are 2556 jobs;
    the clock advances an eighth of a second with each request, so the
    2501st pass finds the day's count at its maximum less than a day after
    the last dispatch, and [get_dist_mat] ends with [NameError] instead of
    waiting. *)
Theorem quota_wait_raises_NameError :
  get_dist_mat (counting_clock (eighths epoch_2014)) (const_oracle "1000")
               book_72 (create_jobs book_72)
  = Some (Raise (NameError "wait_time")).
Proof.
  apply counting_quota_raises.
  - intros j. apply request_of_create_jobs, book_72_ok.
  - intros tr ori des. by exists "1000".
  - unfold num_jobs. rewrite book_72_jobs. unfold max_jobs_day. lia.
  - vm_compute. reflexivity.
Qed.

(** C4 fails as worded: in the second pass of this run 2^-11 seconds have
    passed since the last dispatch, which is less than [time_jobs]; the
    scheduler sleeps [time_jobs], not the shorter remaining interval. *)
Lemma pacing_wait_is_not_the_remainder :
  let clock := sim_clock epoch_2014 fast in
  let oracle := const_oracle "1000" in
  let st := after_dispatch init epoch_2014 0 1 "1000" in
  let tr := [EvTime epoch_2014; EvGet "A" "B" "1000"] in
  passes clock oracle book_3_2 (create_jobs book_3_2) 1 (init, []) = Some (st, tr)
  ∧ (clock tr - last_time st)%float = 0.00048828125%float
  ∧ (clock tr - last_time st <? time_jobs)%float = true
  ∧ (remaining_interval st (clock tr) <? time_jobs)%float = true
  ∧ loop_body clock oracle book_3_2 (create_jobs book_3_2) st tr
    = Ok (after_dispatch st (clock tr) 0 2 "1000",
          tr ++ [EvTime (clock tr); EvSleep time_jobs; EvGet "A" "C" "1000"])
  ∧ sleeps (tr ++ [EvTime (clock tr); EvSleep time_jobs; EvGet "A" "C" "1000"])
    ≠ [remaining_interval st (clock tr)].
Proof.
  cbv zeta. split_and!; [vm_compute; reflexivity..|].
  intros Heq.
  apply (f_equal (λ l, match l with [x] => (x <? time_jobs)%float | _ => false end)) in Heq.
  vm_compute in Heq. discriminate.
Qed.

(** The second pass of that run sleeps [time_jobs] once and dispatches. *)
Lemma pacing_wait_full_interval_witness :
  let clock := sim_clock epoch_2014 fast in
  let oracle := const_oracle "1000" in
  let st := after_dispatch init epoch_2014 0 1 "1000" in
  let tr := [EvTime epoch_2014; EvGet "A" "B" "1000"] in
  quota_reached st = false
  ∧ (clock tr - last_time st <? time_jobs)%float = true
  ∧ loop_body clock oracle book_3_2 (create_jobs book_3_2) st tr
    = Ok (after_dispatch st (clock tr) 0 2 "1000",
          tr ++ [EvTime (clock tr); EvSleep time_jobs; EvGet "A" "C" "1000"]).
Proof.
  cbv zeta. split_and!; [reflexivity | vm_compute; reflexivity |].
  rewrite (pacing_wait_full_interval _ _ _ _ _ _ 1 0 2 "A" "C");
    [reflexivity | reflexivity | vm_compute; reflexivity | reflexivity | reflexivity].
Defined.



(** With every answer "1000", the cells of the ids 0 and 2 of group 1
    both hold "1000". *)
Lemma constant_oracle_matrix_witness :
  ∃ m tr,
    get_dist_mat (sim_clock epoch_2014 slow) (const_oracle "1000")
                 book_3_2 (create_jobs book_3_2) = Some (Ok (m, tr))
    ∧ cell_at m 2 0 = Some "1000" ∧ cell_at m 0 2 = Some "1000"
    ∧ cell_at m 2 0 = cell_at m 0 2.
Proof.
  destruct (get_dist_mat_completes (sim_clock epoch_2014 slow) (const_oracle "1000")
              book_3_2) as (m & tr & Hrun).
  { unfold addr_book_ok, is_dict. by_evaluation. }
  { intros tr ori des. by exists "1000". }
  { vm_compute. lia. }
  exists m, tr. split; [exact Hrun|].
  apply (constant_oracle_matrix (sim_clock epoch_2014 slow) (const_oracle "1000")
           book_3_2 "1000" m tr (λ _ _ _, eq_refl) Hrun
           1 [(0, "A"); (1, "B"); (2, "C")]%string 2 0).
  - by left.
  - by_evaluation.
  - by_evaluation.
  - done.
Defined.

(** In the run over the groups {0, 1} and {2}: no diagonal cell, the rows
    are those of the ids of jobs, and the lone id 2 has no row. *)
Lemma matrix_keys_are_job_ids_witness :
  addr_book_ok book_2_1
  ∧ ∃ m tr,
      get_dist_mat (sim_clock epoch_2014 slow) (const_oracle "1000")
                   book_2_1 (create_jobs book_2_1) = Some (Ok (m, tr))
      ∧ cell_at m 0 0 = None
      ∧ (is_Some (m !! 1) ↔ mentions (create_jobs book_2_1) 1)
      ∧ m !! 2 = None.
Proof.
  assert (addr_book_ok book_2_1) as Hok by (unfold addr_book_ok, is_dict; by_evaluation).
  split; [exact Hok|].
  destruct (get_dist_mat_completes (sim_clock epoch_2014 slow) (const_oracle "1000")
              book_2_1 Hok) as (m & tr & Hrun).
  { intros tr ori des. by exists "1000". }
  { vm_compute. lia. }
  exists m, tr. split; [exact Hrun|].
  destruct (matrix_keys_are_job_ids (sim_clock epoch_2014 slow) (const_oracle "1000")
              book_2_1 Hok) as [_ Hshape].
  destruct (Hshape m tr Hrun) as (Hdiag & Hrows & _ & Hone).
  split_and!.
  - unfold cell_at. destruct (m !! 0) as [row|] eqn:Hrow; [|done]. exact (Hdiag 0 row Hrow).
  - apply Hrows.
  - refine (proj1 (Hone _ 2 2 "C"%string _)).
    + unfold ids_one_group. by_evaluation.
    + by_evaluation.
Defined.



(** * Properties of the rest of the program *)

(** ** Text: [rstrip] and [split] *)

Lemma chars_app (s t : string) : chars (s ++ t) = chars s ++ chars t.
Proof. unfold chars. induction s as [|c s IH]; simpl; [done | by rewrite IH]. Qed.

Lemma rstrip_blank (s : string) : blank s → rstrip s = EmptyString.
Proof.
  unfold blank, chars. induction s as [|c s IH]; simpl; [done|].
  intros [Hc Hs]%Forall_cons. by rewrite IH, Hc.
Qed.

(** [rstrip] drops a blank tail and nothing else of a string that does not
    end with a blank. *)
Lemma rstrip_app_blank (s ws : string) :
  blank ws → rstrip (s ++ ws) = rstrip s.
Proof.
  intros Hws. induction s as [|c s IH]; simpl; [by apply rstrip_blank|].
  by rewrite IH.
Qed.

Lemma rstrip_snoc_nonblank (s : string) (c : Ascii.ascii) :
  isspace c = false → rstrip (s ++ String c EmptyString) = (s ++ String c EmptyString)%string.
Proof.
  intros Hc. induction s as [|c' s IH]; simpl; [by rewrite Hc|].
  rewrite IH. by destruct s.
Qed.

(** What [rstrip] returns is the string less a blank tail. *)
Lemma rstrip_prefix (s : string) :
  ∃ ws, s = (rstrip s ++ ws)%string ∧ blank ws.
Proof.
  induction s as [|c s (ws & Hs & Hws)]; simpl; [by exists EmptyString; split; [|constructor]|].
  destruct (rstrip s) as [|c' r] eqn:Hr.
  - destruct (isspace c) eqn:Hc.
    + exists (String c s). split; [done|]. simpl in Hs. subst s.
      unfold blank, chars. simpl. by constructor.
    + exists ws. simpl in *. by subst.
  - exists ws. split; [|done].
    change (String c s = String c (String c' r ++ ws)%string). by rewrite <- Hs.
Qed.

Lemma rstrip_chars_subseteq (s : string) (c : Ascii.ascii) :
  c ∈ chars (rstrip s) → c ∈ chars s.
Proof.
  destruct (rstrip_prefix s) as (ws & Hs & _). intros Hc.
  rewrite Hs, chars_app, elem_of_app. by left.
Qed.

Lemma split_not_nil (sep : Ascii.ascii) (s : string) : split sep s ≠ [].
Proof. induction s as [|c s IH]; simpl; [done|]. case_decide; [done|]. by destruct (split sep s). Qed.

(** A string without separator is its own single field. *)
Lemma split_no_sep (sep : Ascii.ascii) (s : string) :
  sep ∉ chars s → split sep s = [s].
Proof.
  unfold chars. induction s as [|c s IH]; simpl; [done|].
  rewrite not_elem_of_cons. intros [Hc Hs]. rewrite decide_False by done. by rewrite IH.
Qed.

Lemma split_app_sep (sep : Ascii.ascii) (s t : string) :
  sep ∉ chars s → split sep (s ++ String sep t) = s :: split sep t.
Proof.
  unfold chars. induction s as [|c s IH]; simpl.
  - intros _. by rewrite decide_True.
  - rewrite not_elem_of_cons. intros [Hc Hs]. rewrite decide_False by done. by rewrite IH.
Qed.

(** A second field exists exactly when the string has a separator. *)
Lemma split_second_field (sep : Ascii.ascii) (s : string) :
  split sep s !! 1%nat = None ↔ sep ∉ chars s.
Proof.
  unfold chars. induction s as [|c s IH]; simpl;
    [split; [intros _; apply not_elem_of_nil | done]|].
  rewrite not_elem_of_cons. case_decide as Hc.
  - pose proof (split_not_nil sep s). destruct (split sep s); [done|].
    simpl. split; [done | intros [? _]; congruence].
  - destruct (split sep s) as [|f fs] eqn:Hsplit; [by destruct (split_not_nil sep s)|].
    simpl in *. rewrite IH. split; [intros ?; split; congruence | by intros [_ ?]].
Qed.

(** Joining the fields gives the string back. *)
Lemma join_split (sep : Ascii.ascii) (s : string) : join sep (split sep s) = s.
Proof.
  induction s as [|c s IH]; simpl; [done|]. case_decide as Hc.
  - subst c. pose proof (split_not_nil sep s).
    destruct (split sep s) as [|f fs]; [done|]. simpl in *. by rewrite IH.
  - destruct (split sep s) as [|f fs] eqn:Hsplit; [by destruct (split_not_nil sep s)|].
    simpl in *. destruct fs; simpl in *; by rewrite <- IH.
Qed.

Lemma split_fields_no_sep (sep : Ascii.ascii) (s : string) :
  Forall (λ field, sep ∉ chars field) (split sep s).
Proof.
  unfold chars. induction s as [|c s IH]; simpl.
  - repeat constructor. apply not_elem_of_nil.
  - case_decide as Hc.
    + constructor; [apply not_elem_of_nil | done].
    + destruct (split sep s) as [|f fs] eqn:E; [by destruct (split_not_nil sep s)|].
      apply Forall_cons in IH as [Hf Hfs]. constructor; [|done].
      simpl. rewrite not_elem_of_cons. split; [congruence | done].
Qed.

Lemma append_cons (c : Ascii.ascii) (s t : string) :
  (String c s ++ t)%string = String c (s ++ t).
Proof. reflexivity. Qed.

Lemma append_assoc (s t u : string) : ((s ++ t) ++ u = s ++ (t ++ u))%string.
Proof. induction s as [|c s IH]; [done|]. by rewrite !append_cons, IH. Qed.

Lemma rstrip_app_nonblank (s t : string) :
  rstrip t = t → t ≠ EmptyString → rstrip (s ++ t) = (s ++ t)%string.
Proof.
  intros Ht Hne. induction s as [|c s IH]; [done|].
  rewrite append_cons. simpl. rewrite IH.
  destruct s; [by destruct t | by rewrite append_cons].
Qed.

Lemma isspace_tab : isspace tab = true.
Proof. reflexivity. Qed.

(** ** One line of the address file *)

Section ParseLine.
Context (int : string → option Z).

(** A line with no tab left once its blank tail is dropped has no group
    field: [items[1]] raises. *)
Lemma parse_line_IndexError (line : string) :
  parse_line int line = inl IndexError_items ↔ tab ∉ chars (rstrip line).
Proof.
  unfold parse_line. rewrite <- split_second_field.
  destruct (split tab (rstrip line) !! 1%nat) as [field|]; [|done].
  split; [|done]. by destruct (int field).
Qed.

(** X1. The line [add], tab, [grp], blanks: when [add] and [grp] hold no tab
    and [grp] is not empty and ends with no blank, the address is [add]
    and the group is read from [grp]. *)
Lemma parse_line_record (add grp ws : string) :
  tab ∉ chars add → tab ∉ chars grp → rstrip grp = grp → grp ≠ EmptyString →
  blank ws →
  parse_line int (add ++ String tab (grp ++ ws))
  = match int grp with
    | Some g => inr (add, g)
    | None => inl ValueError_int
    end.
Proof.
  intros Hadd Hgrp Hstrip Hne Hws. unfold parse_line.
  change (add ++ String tab (grp ++ ws))%string
    with (add ++ (String tab grp ++ ws))%string.
  rewrite <- append_assoc, rstrip_app_blank by done.
  change (add ++ String tab grp)%string with (add ++ (String tab EmptyString ++ grp))%string.
  rewrite <- append_assoc, rstrip_app_nonblank by done.
  rewrite append_assoc.
  change (String tab EmptyString ++ grp)%string with (String tab grp).
  rewrite split_app_sep, split_no_sep by done. simpl.
  by destruct (int grp).
Qed.

(** X2. The line [add], tab, blanks: the tab goes with the blank tail, so the
    line has one field and [items[1]] raises; [int] is not reached. *)
Lemma parse_line_blank_group (add ws : string) :
  tab ∉ chars add → blank ws →
  parse_line int (add ++ String tab ws) = inl IndexError_items.
Proof.
  intros Hadd Hws. apply parse_line_IndexError.
  rewrite rstrip_app_blank.
  { intros Hin. by apply Hadd, rstrip_chars_subseteq. }
  unfold blank, chars. simpl. constructor; [apply isspace_tab | done].
Qed.

(** The address read holds no tab, nor does what is given to [int]. *)
Lemma parse_line_inr (line add : string) (grp : Z) :
  parse_line int line = inr (add, grp) →
  (tab ∉ chars add)
  ∧ ∃ field rest, split tab (rstrip line) = add :: field :: rest ∧ int field = Some grp.
Proof.
  unfold parse_line. pose proof (split_fields_no_sep tab (rstrip line)) as Hfields.
  destruct (split tab (rstrip line)) as [|a [|field rest]]; simpl; try done.
  destruct (int field) as [g|] eqn:Hint; [|done]. intros [= <- <-].
  apply Forall_cons in Hfields as [Ha _]. eauto.
Qed.

End ParseLine.

(** ** Insertion *)

Section DictSet.
Context {K V : Type} `{EqDecision K}.
Implicit Types (d : list (K * V)) (k : K) (v : V).

Lemma dict_get_dict_set d k k' v :
  dict_get k' (dict_set k v d) = if decide (k' = k) then Some v else dict_get k' d.
Proof.
  induction d as [|[k0 v0] d IH]; simpl.
  - by destruct (decide (k' = k)).
  - destruct (decide (k = k0)) as [->|Hk]; simpl.
    + by destruct (decide (k' = k0)).
    + destruct (decide (k' = k0)) as [->|Hk'].
      * by rewrite decide_False by done.
      * by rewrite IH.
Qed.

Lemma dict_set_fresh d k v : k ∉ keys d → dict_set k v d = d ++ [(k, v)].
Proof.
  unfold keys. induction d as [|[k0 v0] d IH]; simpl; [done|].
  rewrite not_elem_of_cons. intros [Hk Hd]. rewrite decide_False by done. by rewrite IH.
Qed.

Lemma keys_dict_set_known d k v : k ∈ keys d → keys (dict_set k v d) = keys d.
Proof.
  unfold keys. induction d as [|[k0 v0] d IH]; simpl; [by intros ?%elem_of_nil|].
  destruct (decide (k = k0)) as [->|Hk]; simpl; [done|].
  rewrite elem_of_cons. intros [?|Hin]; [done|]. f_equal. by apply IH.
Qed.

Lemma is_dict_dict_set d k v : is_dict d → is_dict (dict_set k v d).
Proof.
  unfold is_dict. intros Hd. destruct (decide (k ∈ keys d)) as [Hin|Hnin].
  - by rewrite keys_dict_set_known.
  - rewrite dict_set_fresh by done. unfold keys in *. rewrite fmap_app. simpl.
    apply NoDup_app. split_and!; [done | | apply NoDup_singleton].
    intros x Hx ->%list_elem_of_singleton. done.
Qed.

End DictSet.

Lemma book_set_nil (grp id : Z) (add : string) :
  book_set grp id add [] = [(grp, [(id, add)])].
Proof. reflexivity. Qed.

Lemma book_set_cons (grp id : Z) (add : string) (ga : Z * list (Z * string))
    (book : address_book) :
  book_set grp id add (ga :: book)
  = if decide (grp = ga.1) then (grp, dict_set id add ga.2) :: book
    else ga :: book_set grp id add book.
Proof.
  destruct ga as [g adds]. unfold book_set. simpl.
  destruct (decide (grp = g)); done.
Qed.

(** The address stored is found again, and the others are as before. *)
Lemma addr_of_book_set (book : address_book) (grp id grp' id' : Z) (add : string) :
  addr_of (book_set grp id add book) grp' id'
  = if decide (grp' = grp ∧ id' = id) then Some add else addr_of book grp' id'.
Proof.
  unfold addr_of, book_set. rewrite dict_get_dict_set.
  destruct (decide (grp' = grp)) as [->|Hg]; simpl.
  - rewrite dict_get_dict_set. destruct (decide (id' = id)) as [->|Hid].
    + by rewrite decide_True.
    + by rewrite decide_False by tauto.
  - by rewrite decide_False by tauto.
Qed.

Lemma addr_of_all_ids (book : address_book) (grp id : Z) :
  is_Some (addr_of book grp id) → id ∈ all_ids book.
Proof.
  unfold addr_of. destruct (dict_get grp book) as [adds|] eqn:Hg; simpl; [|by intros [? ?]].
  intros Hid%dict_get_keys. unfold all_ids. apply list_elem_of_bind.
  exists (grp, adds). split; [done | by apply dict_get_Some].
Qed.

Lemma all_ids_cons (ga : Z * list (Z * string)) (book : address_book) :
  all_ids (ga :: book) = keys ga.2 ++ all_ids book.
Proof. unfold all_ids. by rewrite bind_cons. Qed.

(** A fresh id goes to the end of its group, or opens a new group at the
    end of the book. *)
Lemma all_ids_book_set (book : address_book) (grp id : Z) (add : string) :
  id ∉ all_ids book → all_ids (book_set grp id add book) ≡ₚ id :: all_ids book.
Proof.
  induction book as [|[g adds] book IH]; intros Hid.
  - by rewrite book_set_nil.
  - rewrite book_set_cons. rewrite all_ids_cons, elem_of_app in Hid. simpl in Hid.
    simpl. destruct (decide (grp = g)) as [->|Hg]; rewrite !all_ids_cons; simpl.
    + rewrite dict_set_fresh by tauto. unfold keys at 1. rewrite fmap_app. simpl.
      fold (keys adds). rewrite <- app_assoc. simpl.
      by rewrite <- Permutation_middle.
    + rewrite IH by tauto. by rewrite <- Permutation_middle.
Qed.

Lemma keys_book_set (book : address_book) (grp id : Z) (add : string) :
  keys (book_set grp id add book)
  = if decide (grp ∈ keys book) then keys book else keys book ++ [grp].
Proof.
  unfold book_set. case_decide as Hin.
  - by apply keys_dict_set_known.
  - rewrite dict_set_fresh by done. unfold keys. by rewrite fmap_app.
Qed.

Lemma StronglySorted_snoc_lt (l : list Z) (x : Z) :
  StronglySorted Z.lt l → (∀ y, y ∈ l → y < x) → StronglySorted Z.lt (l ++ [x]).
Proof.
  induction 1 as [|y l Hl IH Hy]; intros Hlt; simpl.
  - repeat constructor.
  - constructor.
    + apply IH. intros z Hz. apply Hlt. by right.
    + apply Forall_app. split; [done|]. constructor; [|done]. apply Hlt. by left.
Qed.

Lemma Forall_dict_set {K V : Type} `{EqDecision K} (P : K * V → Prop)
    (d : list (K * V)) (k : K) (v : V) :
  Forall P d → P (k, v) → Forall P (dict_set k v d).
Proof.
  intros Hd Hkv. induction Hd as [|[k0 v0] d H0 Hd IH]; simpl; [by repeat constructor|].
  case_decide; by constructor.
Qed.

(** The loop body keeps its invariant. *)
Lemma imported_book_set (book : address_book) (grp id : Z) (add : string) :
  imported book id → imported (book_set grp id add book) (id + 1).
Proof.
  intros (Hid & Hbook & Hgroups & Hnd & Hids).
  assert (id ∉ all_ids book) as Hfresh by (rewrite Hids; lia).
  split_and!.
  - lia.
  - by apply is_dict_dict_set.
  - apply Forall_dict_set; [done|]. simpl.
    destruct (dict_get grp book) as [adds|] eqn:Hg; simpl.
    + apply dict_get_Some in Hg as Hin. rewrite Forall_forall in Hgroups.
      destruct (Hgroups _ Hin) as [_ Hsorted]. simpl in Hsorted.
      assert (∀ y, y ∈ keys adds → y < id) as Hlt.
      { intros y Hy. apply Hids, list_elem_of_bind. by exists (grp, adds). }
      rewrite dict_set_fresh by (intros Hin'%Hlt; lia).
      split; [by destruct adds|].
      unfold keys in *. rewrite fmap_app. by apply StronglySorted_snoc_lt.
    + split; [done|]. repeat constructor.
  - rewrite all_ids_book_set by done. by constructor.
  - intros x. rewrite all_ids_book_set, elem_of_cons, Hids by done. lia.
Qed.

Lemma imported_nil : imported [] 0.
Proof.
  split_and!; [lia | constructor | constructor | constructor |].
  intros x. split; [by intros ?%elem_of_nil | lia].
Qed.

Lemma imported_ok (book : address_book) (id : Z) :
  imported book id → addr_book_ok book ∧ ids_one_group book.
Proof.
  intros (_ & Hbook & Hgroups & Hnd & _). split; [split; [done|] | done].
  eapply Forall_impl; [exact Hgroups|]. intros ga [_ Hsorted].
  unfold is_dict. clear -Hsorted. induction Hsorted as [|x l Hl IH Hx]; constructor; [|done].
  intros Hin. rewrite Forall_forall in Hx. specialize (Hx _ Hin). lia.
Qed.

(** ** [import_addr] *)

Lemma kept_cons (line : string) (lines : list string) :
  kept (line :: lines) = if skipped line then kept lines else line :: kept lines.
Proof.
  unfold kept. destruct (skipped line) eqn:Hs.
  - by rewrite filter_cons_False by (rewrite Hs; done).
  - by rewrite filter_cons_True by done.
Qed.

Lemma combinations2_sorted {A : Type} (R : relation A) (l : list A) (a b : A) :
  StronglySorted R l → (a, b) ∈ combinations2 l → R a b.
Proof.
  induction 1 as [|x l Hl IH Hx]; simpl; [by intros ?%elem_of_nil|].
  rewrite elem_of_app, list_elem_of_fmap. intros [(y & [= -> ->] & Hy)|Hin]; [|by apply IH].
  rewrite Forall_forall in Hx. by apply Hx.
Qed.

Section ImportAddr.
Context (int : string → option Z).

#[local] Abbreviation parses line := (∃ r, parse_line int line = inr r).

(** What the loop has done when it ends without raising. *)
Lemma import_loop_inr (lines : list string) (book book' : address_book) (id : Z) :
  imported book id → import_loop int lines book id = inr book' →
  imported book' (id + Z.of_nat (length (kept lines)))
  ∧ (∀ k line, kept lines !! k = Some line →
       ∃ add grp, parse_line int line = inr (add, grp)
                  ∧ addr_of book' grp (id + Z.of_nat k) = Some add)
  ∧ (∀ g x, x < id → addr_of book' g x = addr_of book g x)
  ∧ (∀ g x a, id ≤ x → addr_of book' g x = Some a →
       ∃ k line, x = id + Z.of_nat k ∧ kept lines !! k = Some line
                 ∧ parse_line int line = inr (a, g)).
Proof.
  revert book id. induction lines as [|line lines IH]; intros book id Hinv; simpl.
  - intros [= <-]. rewrite Z.add_0_r. split_and!; try done.
    intros g x a Hx Ha. destruct Hinv as (_ & _ & _ & _ & Hids).
    assert (x ∈ all_ids book) as Hin by (apply (addr_of_all_ids _ g); eauto).
    apply Hids in Hin. lia.
  - rewrite kept_cons. destruct (skipped line); [by apply IH|].
    destruct (parse_line int line) as [e|[add grp]] eqn:Hparse; [done|].
    intros Hloop. pose proof (imported_book_set book grp id add Hinv) as Hinv'.
    destruct (IH _ _ Hinv' Hloop) as (Hfinal & Hlook & Hold & Hnew).
    assert (addr_of book' grp id = Some add) as Hhere.
    { rewrite Hold by lia. rewrite addr_of_book_set. by rewrite decide_True. }
    split_and!.
    + simpl length. by replace (id + Z.of_nat (S (length (kept lines))))
        with (id + 1 + Z.of_nat (length (kept lines))) by lia.
    + intros [|k] l Hl; simpl in Hl.
      * injection Hl as <-. exists add, grp. by rewrite Z.add_0_r.
      * destruct (Hlook k l Hl) as (a & g & Hp & Ha). exists a, g. split; [done|].
        by replace (id + Z.of_nat (S k)) with (id + 1 + Z.of_nat k) by lia.
    + intros g x Hx. rewrite Hold by lia. rewrite addr_of_book_set.
      by rewrite decide_False by lia.
    + intros g x a Hx Ha. destruct (decide (x = id)) as [->|Hne].
      * exists 0%nat, line. rewrite Z.add_0_r. split_and!; try done.
        rewrite Hold in Ha by lia. rewrite addr_of_book_set in Ha.
        case_decide as Hg; [destruct Hg as [-> _]; by injection Ha as ->|].
        destruct Hinv as (_ & _ & _ & _ & Hids).
        assert (id ∈ all_ids book) as Hin by (apply (addr_of_all_ids _ g); eauto).
        apply Hids in Hin. lia.
      * destruct (Hnew g x a) as (k & l & -> & Hl & Hp); [lia | done |].
        exists (S k), l. split_and!; [lia | done | done].
Qed.

(** The loop raises at the first kept line that does not parse, whatever
    the book and the id it started from. *)
Lemma import_loop_inl (lines : list string) (book : address_book) (id : Z) (e : import_exn) :
  import_loop int lines book id = inl e ↔
  ∃ good bad rest, kept lines = good ++ bad :: rest
                   ∧ Forall (λ line, parses line) good
                   ∧ parse_line int bad = inl e.
Proof.
  revert book id. induction lines as [|line lines IH]; intros book id; simpl.
  - split; [done|]. by intros ([|??] & ? & ? & ? & _).
  - rewrite kept_cons. destruct (skipped line); [by apply IH|].
    destruct (parse_line int line) as [e'|[add grp]] eqn:Hparse.
    + split.
      * intros [= ->]. exists [], line, (kept lines). by split_and!.
      * intros ([|l good] & bad & rest & Heq & Hgood & Hbad); simpl in Heq.
        -- injection Heq as <- _. congruence.
        -- injection Heq as <- _. apply Forall_cons in Hgood as [[r Hr] _]. congruence.
    + rewrite IH. split.
      * intros (good & bad & rest & -> & Hgood & Hbad).
        exists (line :: good), bad, rest. split_and!; [done | | done].
        constructor; [eauto | done].
      * intros ([|l good] & bad & rest & Heq & Hgood & Hbad); simpl in Heq.
        -- injection Heq as <- _. congruence.
        -- injection Heq as <- ->. apply Forall_cons in Hgood as [_ Hgood].
           by exists good, bad, rest.
Qed.

(** X3. The book [import_addr] returns is well formed: the group numbers
    are distinct, no group is empty, every id is in one group only, the
    ids are the numbers from 0 up to the number of kept lines, and within
    a group they go up in the order of insertion. *)
Theorem import_addr_well_formed (lines : list string) (book : address_book) :
  import_addr int lines = inr book →
  addr_book_ok book
  ∧ ids_one_group book
  ∧ (∀ x, x ∈ all_ids book ↔ 0 ≤ x < Z.of_nat (length (kept lines)))
  ∧ Forall (λ ga, ga.2 ≠ [] ∧ StronglySorted Z.lt (keys ga.2)) book.
Proof.
  intros Hloop. destruct (import_loop_inr lines [] book 0 imported_nil Hloop) as [Hinv _].
  destruct (imported_ok _ _ Hinv) as [Hok Hone].
  destruct Hinv as (_ & _ & Hgroups & _ & Hids). by split_and!.
Qed.

(** X4. Reading back: after [import_addr], [addr_book[grp][id]] is [add]
    exactly when the kept line number [id] (from 0, comments and empty
    lines not counted) parses to the address [add] and the group [grp]. *)
Theorem import_addr_lookup (lines : list string) (book : address_book)
    (grp id : Z) (add : string) :
  import_addr int lines = inr book →
  addr_of book grp id = Some add ↔
  ∃ k line, id = Z.of_nat k ∧ kept lines !! k = Some line
            ∧ parse_line int line = inr (add, grp).
Proof.
  intros Hloop.
  destruct (import_loop_inr lines [] book 0 imported_nil Hloop)
    as ((_ & _ & _ & _ & Hids) & Hlook & _ & Hnew).
  split.
  - intros Ha. assert (0 ≤ id) as Hid.
    { assert (id ∈ all_ids book) as Hin by (apply (addr_of_all_ids _ grp); eauto).
      apply Hids in Hin. lia. }
    destruct (Hnew grp id add Hid Ha) as (k & line & -> & Hl & Hp). eauto.
  - intros (k & line & -> & Hl & Hp).
    destruct (Hlook k line Hl) as (a & g & Hp' & Ha).
    rewrite Hp in Hp'. by injection Hp' as <- <-.
Qed.

(** X5. [import_addr] raises exactly when some kept line does not parse,
    and then with the exception of the first such line; skipped lines
    never raise. A line fails with [IndexError] when it has no tab left
    once its blank tail is dropped, and with [ValueError] when [int]
    rejects its second field. *)
Theorem import_addr_raises (lines : list string) (e : import_exn) :
  import_addr int lines = inl e ↔
  ∃ good bad rest,
    kept lines = good ++ bad :: rest
    ∧ Forall (λ line, parses line) good
    ∧ match e with
      | IndexError_items => tab ∉ chars (rstrip bad)
      | ValueError_int =>
          ∃ field, split tab (rstrip bad) !! 1%nat = Some field ∧ int field = None
      end.
Proof.
  unfold import_addr. rewrite import_loop_inl.
  assert (∀ bad, parse_line int bad = inl e ↔
            match e with
            | IndexError_items => tab ∉ chars (rstrip bad)
            | ValueError_int =>
                ∃ field, split tab (rstrip bad) !! 1%nat = Some field ∧ int field = None
            end) as Hbad.
  { intros bad. destruct e; [apply parse_line_IndexError|].
    unfold parse_line. destruct (split tab (rstrip bad) !! 1%nat) as [field|].
    - destruct (int field) eqn:Hint.
      + split; [done|]. intros (f & [= <-] & ?). congruence.
      + split; [eauto | done].
    - split; [done|]. by intros (f & ? & _). }
  split; intros (good & bad & rest & Hk & Hg & Hb); exists good, bad, rest;
    by rewrite Hbad in *.
Qed.

(** X6. In the book [import_addr] returns the ids of a group go up, so
    every job [create_jobs] makes of it has its origin id below its
    destination id. *)
Theorem import_addr_jobs_ascending (lines : list string) (book : address_book)
    (g o d : Z) :
  import_addr int lines = inr book → (g, o, d) ∈ create_jobs book → o < d.
Proof.
  intros Hloop (adds & Hin & Hp)%elem_of_create_jobs.
  destruct (import_loop_inr lines [] book 0 imported_nil Hloop)
    as ((_ & _ & Hgroups & _) & _).
  rewrite Forall_forall in Hgroups. destruct (Hgroups _ Hin) as [_ Hsorted].
  by apply (combinations2_sorted Z.lt (keys adds)).
Qed.

Lemma import_loop_kept (lines : list string) (book : address_book) (id : Z) :
  import_loop int lines book id = import_loop int (kept lines) book id.
Proof.
  revert book id. induction lines as [|line lines IH]; intros book id; [done|].
  rewrite kept_cons. simpl. destruct (skipped line) eqn:Hs; [by apply IH|].
  simpl. rewrite Hs. destruct (parse_line int line) as [e|[add grp]]; [done|]. apply IH.
Qed.

(** X7. Comments and empty lines count for nothing: [import_addr] gives
    the same book, or raises the same exception, on a file and on the file
    without its skipped lines; and no line is skipped twice. *)
Theorem import_addr_skips (lines : list string) :
  import_addr int lines = import_addr int (kept lines)
  ∧ kept (kept lines) = kept lines.
Proof.
  split; [apply import_loop_kept|].
  unfold kept. induction lines as [|line lines IH]; [done|].
  destruct (skipped line) eqn:Hs.
  - by rewrite filter_cons_False by (rewrite Hs; done).
  - rewrite filter_cons_True by done. rewrite filter_cons_True by done. by rewrite IH.
Qed.

End ImportAddr.

(** ** More on [get_dist_mat] *)

Section RunMore.
Context (clock : trace → float) (oracle : trace → string → string → option string).
Context (addr_book : address_book) (job_list : list job).

#[local] Abbreviation body' := (loop_body clock oracle addr_book job_list).
#[local] Abbreviation request' := (request_of addr_book).
#[local] Abbreviation reach' := (reachable clock oracle addr_book job_list).
#[local] Abbreviation run' := (get_dist_mat clock oracle addr_book job_list).
#[local] Abbreviation n_jobs' := (num_jobs job_list).

(** The count of the day against the cursor and the maximum. *)
Lemma reachable_day_count (st : sched) (tr : trace) :
  reach' (st, tr) →
  (num_jobs_day st ≤ max_jobs_day)%nat
  ∧ (i st ≤ max_jobs_day → num_jobs_day st = i st)%nat
  ∧ (0 < i st → 0 < num_jobs_day st)%nat.
Proof.
  revert st tr. apply reachable_ind; simpl; [lia|].
  intros st tr grp o d ori des dist _ (Hmax & Hsame & _) _ _ _ _ _.
  assert (1 ≤ max_jobs_day)%nat by (unfold max_jobs_day; lia).
  unfold quota_reached. case_bool_decide; lia.
Qed.

Lemma quota_reached_true (st : sched) :
  quota_reached st = true → (max_jobs_day ≤ num_jobs_day st)%nat.
Proof. unfold quota_reached. case_bool_decide; done. Qed.

(** X8. At every head of the loop the count of the day is at most
    [max_jobs_day] and at most the cursor; it equals the cursor as long as
    the cursor has not passed [max_jobs_day], and it is at least 1 once a
    job has been dispatched. *)
Theorem day_count_bounded (st : sched) (tr : trace) :
  reach' (st, tr) →
  (num_jobs_day st ≤ max_jobs_day)%nat
  ∧ (num_jobs_day st ≤ i st)%nat
  ∧ (i st ≤ max_jobs_day → num_jobs_day st = i st)%nat
  ∧ (0 < i st → 0 < num_jobs_day st)%nat.
Proof.
  intros Hst. destruct (reachable_day_count st tr Hst) as (Hmax & Hsame & Hpos).
  split_and!; try done. destruct (decide (i st ≤ max_jobs_day)%nat); lia.
Qed.

(** Every configuration before the cursor of a reached one was reached,
    and its pass did not raise. *)
Lemma reachable_before (st : sched) (tr : trace) (k : nat) :
  reach' (st, tr) → (k < i st)%nat →
  ∃ st0 tr0 c, reach' (st0, tr0) ∧ i st0 = k ∧ (i st0 < n_jobs')%nat
               ∧ body' st0 tr0 = Ok c.
Proof.
  intros Hst. revert k.
  enough (∀ c, reach' c → ∀ k, (k < i c.1)%nat →
            ∃ st0 tr0 c0, reach' (st0, tr0) ∧ i st0 = k ∧ (i st0 < n_jobs')%nat
                          ∧ body' st0 tr0 = Ok c0) as H by apply (H (st, tr) Hst).
  clear st tr Hst. apply (rtc_ind_r (λ c, ∀ k, (k < i c.1)%nat → _)).
  - simpl. intros k Hk. lia.
  - intros [st tr] [st' tr'] Hreach [Hlt Hbody] IH k Hk. simpl in *.
    assert (i st' = S (i st)) as Hi'
      by (apply loop_body_Ok in Hbody as (?&?&?&?&?&?&_&_&_&_&->&_); done).
    destruct (decide (k = i st)) as [->|Hne]; [|apply IH; lia].
    by exists st, tr, (st', tr').
Qed.

(** X9. A run over more than [max_jobs_day] jobs returns a matrix only if
    the pass that found the count of the day at its maximum also found
    that a day or more had passed since the last dispatch. *)
Theorem long_run_needs_a_day (m : matrix) (tr : trace) :
  run' = Some (Ok (m, tr)) → (max_jobs_day < n_jobs')%nat →
  ∃ st tr0, reach' (st, tr0) ∧ i st = max_jobs_day ∧ quota_reached st = true
            ∧ (clock tr0 - last_time st <? day)%float = false.
Proof.
  intros (st & tr0 & Hst & Hi & _)%get_dist_mat_Ok Hlong.
  destruct (reachable_before st tr0 max_jobs_day Hst) as (st0 & tr1 & c & Hst0 & Hi0 & _ & Hbody);
    [lia|].
  destruct (reachable_day_count _ _ Hst0) as (_ & Hsame & _).
  assert (quota_reached st0 = true) as Hq
    by (unfold quota_reached; apply bool_decide_eq_true; lia).
  exists st0, tr1. split_and!; try done.
  destruct c as [st1 tr2].
  apply loop_body_Ok in Hbody as (?&?&?&?&?&?&Hday&_). by apply Hday.
Qed.

(** While the count of the day is below its maximum, the run goes on as
    long as the ids of the jobs resolve and the service answers. *)
Lemma reach_prefix (k : nat) :
  (∀ j, j ∈ take k job_list → is_Some (request' j)) →
  (∀ tr ori des, is_Some (oracle tr ori des)) →
  (k ≤ n_jobs')%nat → (k ≤ max_jobs_day)%nat →
  ∃ st tr, reach' (st, tr) ∧ i st = k.
Proof.
  intros Hreq Horacle. induction k as [|k IH]; intros Hjobs Hmax.
  - exists init, []. split; [constructor | done].
  - assert (∀ j, j ∈ take k job_list → is_Some (request' j)) as Hreq'.
    { intros j Hj. apply Hreq. apply elem_of_take in Hj as (n & Hn & Hlt).
      apply elem_of_take. exists n. split; [done | lia]. }
    destruct (IH Hreq') as (st & tr & Hst & Hi); [lia..|].
    destruct (reachable_day_count _ _ Hst) as (_ & Hsame & _).
    assert (quota_reached st = false) as Hq
      by (unfold quota_reached; apply bool_decide_eq_false; lia).
    destruct (lookup_lt_is_Some_2 job_list k) as [[[grp o] d] Hjob]; [unfold num_jobs in *; lia|].
    destruct (Hreq (grp, o, d)) as [[ori des] Hr].
    { apply elem_of_take. exists k. split; [done | lia]. }
    destruct (Horacle (trace_at_dispatch st tr (clock tr)) ori des) as [dist Hdist].
    exists (after_dispatch st (clock tr) o d dist),
           (trace_at_dispatch st tr (clock tr) ++ [EvGet ori des dist]).
    split; [|simpl; lia].
    eapply rtc_r; [exact Hst|]. split; [simpl; lia|]. simpl.
    rewrite loop_body_unfold; cbv zeta. rewrite Hq, Hi, Hjob. simpl.
    unfold request_of in Hr. simpl in Hr.
    destruct (dict_get o _) as [ori'|]; [|done]. simpl in Hr.
    destruct (dict_get d _) as [des'|]; [|done]. injection Hr as -> ->.
    by rewrite Hdist.
Qed.

(** X10. With more than [max_jobs_day] jobs whose ids resolve and a service
    that always answers, if less than a day has passed when the pass after
    the [max_jobs_day]-th dispatch reads the clock, [get_dist_mat] raises
    [NameError] (the unbound [wait_time]) whatever the clock and the
    answers are otherwise. *)
Theorem quota_exhausted_raises :
  (∀ j, j ∈ job_list → is_Some (request' j)) →
  (∀ tr ori des, is_Some (oracle tr ori des)) →
  (max_jobs_day < n_jobs')%nat →
  (∀ st tr, reach' (st, tr) → i st = max_jobs_day →
            (clock tr - last_time st <? day)%float = true) →
  run' = Some (Raise (NameError "wait_time")).
Proof.
  intros Hreq Horacle Hlong Hclock.
  destruct (reach_prefix max_jobs_day) as (st & tr & Hst & Hi); [|done|lia|lia|].
  { intros j Hj. apply Hreq. by apply elem_of_take in Hj as (n & Hn%list_elem_of_lookup_2 & _). }
  destruct (reachable_day_count _ _ Hst) as (_ & Hsame & _).
  apply (run_raises _ _ _ _ st tr); [done | lia |].
  apply quota_wait_raises; [|by apply Hclock].
  unfold quota_reached. apply bool_decide_eq_true. lia.
Qed.

Lemma readings_dispatch (st : sched) (tr : trace) (t : float) (ori des dist : string) :
  readings (trace_at_dispatch st tr t ++ [EvGet ori des dist]) = readings tr ++ [t].
Proof.
  unfold readings, trace_at_dispatch. rewrite !omap_app. simpl.
  destruct (pacing_wait st t); simpl; by rewrite !app_nil_r.
Qed.

Lemma answers_dispatch (st : sched) (tr : trace) (t : float) (ori des dist : string) :
  answers (trace_at_dispatch st tr t ++ [EvGet ori des dist]) = answers tr ++ [dist].
Proof.
  unfold answers, trace_at_dispatch. rewrite !omap_app. simpl.
  destruct (pacing_wait st t); simpl; by rewrite !app_nil_r.
Qed.

Lemma prints_dispatch (st : sched) (tr : trace) (t : float) (ori des dist : string) :
  prints (trace_at_dispatch st tr t ++ [EvGet ori des dist]) = prints tr.
Proof.
  unfold prints, trace_at_dispatch. rewrite !omap_app. simpl.
  destruct (pacing_wait st t); simpl; by rewrite !app_nil_r.
Qed.

Lemma sleeps_dispatch (st : sched) (tr : trace) (t : float) (ori des dist : string) :
  sleeps (trace_at_dispatch st tr t ++ [EvGet ori des dist])
  = sleeps tr ++ (if pacing_wait st t then [time_jobs] else []).
Proof.
  unfold sleeps, trace_at_dispatch. rewrite !omap_app. simpl.
  destruct (pacing_wait st t); simpl; by rewrite !app_nil_r.
Qed.

(** X11. Up to any head of the loop, the clock has been read once and one
    request sent for each job dispatched, there has been at most one wait
    per job, every wait was of [time_jobs], and nothing was printed. A run
    that returns has done so for every job of the list and printed its one
    line last. *)
Theorem run_events :
  (∀ st tr, reach' (st, tr) →
     length (readings tr) = i st ∧ length (gets tr) = i st
     ∧ length (answers tr) = i st
     ∧ (length (sleeps tr) ≤ i st)%nat
     ∧ Forall (λ secs, secs = time_jobs) (sleeps tr)
     ∧ prints tr = [])
  ∧ (∀ m tr, run' = Some (Ok (m, tr)) →
     length (readings tr) = n_jobs' ∧ length (gets tr) = n_jobs'
     ∧ (length (sleeps tr) ≤ n_jobs')%nat
     ∧ Forall (λ secs, secs = time_jobs) (sleeps tr)
     ∧ prints tr = ["Finish querying!"%string]
     ∧ last tr = Some (EvPrint "Finish querying!")).
Proof.
  assert (∀ st tr, reach' (st, tr) →
     length (readings tr) = i st ∧ length (gets tr) = i st
     ∧ length (answers tr) = i st
     ∧ (length (sleeps tr) ≤ i st)%nat
     ∧ Forall (λ secs, secs = time_jobs) (sleeps tr)
     ∧ prints tr = []) as Hreach.
  { apply reachable_ind; simpl; [by split_and!|].
    intros st tr grp o d ori des dist _ (Hr & Hg & Ha & Hs & Hall & Hp) _ _ _ _ _.
    rewrite readings_dispatch, gets_snoc_get, gets_trace_at_dispatch, answers_dispatch,
      sleeps_dispatch, prints_dispatch, !length_app. simpl.
    split_and!; try lia; try done.
    - destruct (pacing_wait st (clock tr)); simpl; lia.
    - apply Forall_app. split; [done|].
      destruct (pacing_wait st (clock tr)); by repeat constructor. }
  split; [done|].
  intros m tr (st & tr0 & Hst & Hi & _ & ->)%get_dist_mat_Ok.
  destruct (Hreach _ _ Hst) as (Hr & Hg & Ha & Hs & Hall & Hp).
  unfold readings, gets, sleeps, prints in *. rewrite !omap_app. simpl.
  rewrite !app_nil_r, Hp, last_snoc. split_and!; try done; lia.
Qed.

(** X12. When no two jobs of the list are about the same unordered pair,
    the matrix a run returns holds, in both cells of each job, the very
    answer the service gave to the request of that job. *)
Theorem answers_stored (m : matrix) (tr : trace) :
  NoDup (pair_of <$> job_list) →
  run' = Some (Ok (m, tr)) →
  ∀ k g o d, job_list !! k = Some (g, o, d) →
    ∃ v, answers tr !! k = Some v ∧ cell_at m o d = Some v ∧ cell_at m d o = Some v.
Proof.
  intros Hnd.
  assert (∀ st tr, reach' (st, tr) →
            length (answers tr) = i st
            ∧ ∀ k g o d, (k < i st)%nat → job_list !! k = Some (g, o, d) →
                ∃ v, answers tr !! k = Some v ∧ cell_at (dist_mat st) o d = Some v
                     ∧ cell_at (dist_mat st) d o = Some v) as Hreach.
  { apply reachable_ind; simpl; [split; [done | intros; lia]|].
    intros st tr0 grp o' d' ori des dist _ [Hlen IH] _ _ Hjob _ _.
    rewrite answers_dispatch, length_app. simpl. split; [lia|].
    intros k g o d Hk Hk'. rewrite !cell_at_recorded.
    destruct (decide (k = i st)) as [->|Hne].
    - rewrite Hjob in Hk'. injection Hk' as -> -> ->.
      exists dist. rewrite lookup_app_r, Hlen, Nat.sub_diag by lia.
      rewrite !decide_True by tauto. split_and!; reflexivity.
    - destruct (IH k g o d) as (v & Hv & Hod & Hdo); [lia | done |].
      exists v. rewrite lookup_app_l by lia.
      assert (pair_of (g, o, d) ≠ pair_of (grp, o', d')) as Hpair.
      { intros Heq. apply Hne. eapply (NoDup_lookup _ _ _ _ Hnd).
        - rewrite list_lookup_fmap, Hk'. done.
        - rewrite list_lookup_fmap, Hjob. simpl. by rewrite Heq. }
      unfold pair_of in Hpair. simpl in Hpair. rewrite unordered_eq in Hpair.
      rewrite !decide_False; [by split_and! | |].
      + intros [[-> ->]|[-> ->]]; apply Hpair; simpl; tauto.
      + intros [[-> ->]|[-> ->]]; apply Hpair; simpl; tauto. }
  intros (st & tr0 & Hst & Hi & -> & ->)%get_dist_mat_Ok k g o d Hk.
  destruct (Hreach _ _ Hst) as [Hlen Hcells].
  destruct (Hcells k g o d) as (v & Hv & Hod & Hdo); [|done|].
  { apply lookup_lt_Some in Hk. unfold num_jobs in Hi. lia. }
  exists v. split_and!; try done.
  unfold answers in *. rewrite omap_app. simpl. rewrite app_nil_r. done.
Qed.

(** X13. When the first job whose ids do not resolve comes before the
    count of the day reaches its maximum, and the service answers the
    requests before it, [get_dist_mat] raises [KeyError] for the origin id
    if that one is missing from the group, else for the destination id. *)
Theorem unknown_id_raises (k : nat) (g o d : Z) :
  (k < max_jobs_day)%nat →
  job_list !! k = Some (g, o, d) →
  (∀ j, j ∈ take k job_list → is_Some (request' j)) →
  (∀ tr ori des, is_Some (oracle tr ori des)) →
  request' (g, o, d) = None →
  run' = Some (Raise (KeyError (match addr_of addr_book g o with
                                | Some _ => d
                                | None => o
                                end))).
Proof.
  intros Hmax Hjob Hreq Horacle Hnone.
  pose proof (lookup_lt_Some _ _ _ Hjob) as Hlt.
  destruct (reach_prefix k) as (st & tr & Hst & Hi);
    [done | done | unfold num_jobs; lia | lia |].
  destruct (reachable_day_count _ _ Hst) as (_ & Hsame & _).
  apply (run_raises _ _ _ _ st tr); [done | unfold num_jobs; lia |].
  rewrite loop_body_unfold; cbv zeta.
  assert (quota_reached st = false) as ->
    by (unfold quota_reached; apply bool_decide_eq_false; lia).
  rewrite Hi, Hjob. simpl. unfold request_of in Hnone. simpl in Hnone. unfold addr_of.
  destruct (dict_get o _) as [ori|]; [|done]. simpl in Hnone.
  destruct (dict_get d _) as [des|]; done.
Qed.

(** X14. A run returns a matrix only if the ids of every job resolved and
    the service answered every request: it neither skips a job nor tries
    one again. *)
Theorem completed_run_served (m : matrix) (tr : trace) :
  get_dist_mat clock oracle addr_book job_list = Some (Ok (m, tr)) →
  ∀ j, j ∈ job_list →
    ∃ ori des tr0 v, request_of addr_book j = Some (ori, des)
                     ∧ oracle tr0 ori des = Some v.
Proof.
  assert (∀ st tr, reach' (st, tr) → ∀ j, j ∈ take (i st) job_list →
            ∃ ori des tr0 v, request' j = Some (ori, des) ∧ oracle tr0 ori des = Some v)
    as Hreach.
  { apply (reachable_ind clock oracle addr_book job_list
             (λ st _, ∀ j, j ∈ take (i st) job_list →
                ∃ ori des tr0 v, request' j = Some (ori, des) ∧ oracle tr0 ori des = Some v));
      simpl; [by intros j ?%elem_of_nil|].
    intros st tr0 grp o d ori des dist _ IH _ _ Hjob Hreq Hdist j.
    rewrite (take_S_r _ _ _ Hjob), elem_of_app, list_elem_of_singleton.
    intros [Hj| ->]; [by apply IH | eauto 6]. }
  intros (st & tr0 & Hst & Hi & _)%get_dist_mat_Ok j Hj.
  apply (Hreach _ _ Hst). by rewrite Hi, take_ge.
Qed.

(** A run that raises does so in the pass of a reached configuration. *)
Lemma while_loop_Raise (fuel : nat) (st : sched) (tr : trace) (e : exn) :
  while_loop clock oracle addr_book job_list fuel st tr = Some (Raise e) →
  ∃ st' tr', rtc (step clock oracle addr_book job_list) (st, tr) (st', tr')
             ∧ (i st' < n_jobs')%nat ∧ body' st' tr' = Raise e.
Proof.
  revert st tr. induction fuel as [|fuel IH]; intros st tr; simpl;
    case_bool_decide as Hlt; try done.
  destruct (body' st tr) as [[st1 tr1]|e'] eqn:Hbody.
  - intros (st' & tr' & Hrtc & Hlt' & Hraise)%IH. exists st', tr'. split; [|done].
    eapply rtc_l; [|exact Hrtc]. by split.
  - intros [= ->]. exists st, tr. split; [constructor | done].
Qed.

Lemma run_Raise (e : exn) :
  run' = Some (Raise e) ↔
  ∃ st tr, reach' (st, tr) ∧ (i st < n_jobs')%nat ∧ body' st tr = Raise e.
Proof.
  split.
  - unfold get_dist_mat.
    destruct (while_loop _ _ _ _ _ _ _) as [[[st tr]|e']|] eqn:Hloop; try done.
    intros [= ->]. by apply while_loop_Raise in Hloop.
  - intros (st & tr & Hst & Hlt & Hraise). by apply (run_raises _ _ _ _ st tr).
Qed.

(** The exceptions of one pass inside the list. *)
Lemma loop_body_Raise (st : sched) (tr : trace) (e : exn) :
  (i st < n_jobs')%nat → body' st tr = Raise e →
  (e = NameError "wait_time" ∧ quota_reached st = true
   ∧ (clock tr - last_time st <? day)%float = true)
  ∨ ∃ g o d, job_list !! i st = Some (g, o, d)
      ∧ ((addr_of addr_book g o = None ∧ e = KeyError o)
         ∨ (is_Some (addr_of addr_book g o) ∧ addr_of addr_book g d = None
            ∧ e = KeyError d)
         ∨ (∃ ori des, request' (g, o, d) = Some (ori, des)
              ∧ oracle (trace_at_dispatch st tr (clock tr)) ori des = None
              ∧ e = OracleError)).
Proof.
  intros Hlt. rewrite loop_body_unfold; cbv zeta.
  destruct (quota_reached st) eqn:Hq; simpl.
  - destruct (clock tr - last_time st <? day)%float eqn:Hday; [intros [= <-]; by left|].
    destruct (lookup_lt_is_Some_2 job_list (i st) Hlt) as [[[g o] d] Hjob].
    rewrite Hjob. unfold request_of, addr_of. simpl. intros H. right. exists g, o, d.
    split; [done|].
    destruct (dict_get o _) as [ori|]; [|injection H as <-; by left]. simpl.
    destruct (dict_get d _) as [des|]; [|injection H as <-; right; left; eauto].
    simpl. destruct (oracle _ ori des) eqn:Ho; [done|]. injection H as <-.
    right; right. by exists ori, des.
  - destruct (lookup_lt_is_Some_2 job_list (i st) Hlt) as [[[g o] d] Hjob].
    rewrite Hjob. unfold request_of, addr_of. simpl. intros H. right. exists g, o, d.
    split; [done|].
    destruct (dict_get o _) as [ori|]; [|injection H as <-; by left]. simpl.
    destruct (dict_get d _) as [des|]; [|injection H as <-; right; left; eauto].
    simpl. destruct (oracle _ ori des) eqn:Ho; [done|]. injection H as <-.
    right; right. by exists ori, des.
Qed.

(** X15. The exceptions of [get_dist_mat]. When it raises, it is in the
    pass of some job of the list, and the exception is [NameError] (with
    [max_jobs_day] jobs or more dispatched and less than a day since the
    last one), [KeyError] for the first id of the job missing from its
    group, or the failure of the request. It never raises [IndexError]. *)
Theorem run_raise_cases (e : exn) :
  run' = Some (Raise e) →
  ∃ st tr, reach' (st, tr) ∧ (i st < n_jobs')%nat
    ∧ ((e = NameError "wait_time" ∧ (max_jobs_day ≤ i st)%nat
        ∧ (clock tr - last_time st <? day)%float = true)
       ∨ ∃ g o d, job_list !! i st = Some (g, o, d)
           ∧ ((addr_of addr_book g o = None ∧ e = KeyError o)
              ∨ (is_Some (addr_of addr_book g o) ∧ addr_of addr_book g d = None
                 ∧ e = KeyError d)
              ∨ (∃ ori des, request' (g, o, d) = Some (ori, des)
                   ∧ oracle (trace_at_dispatch st tr (clock tr)) ori des = None
                   ∧ e = OracleError))).
Proof.
  intros (st & tr & Hst & Hlt & Hraise)%run_Raise. exists st, tr. split_and!; [done..|].
  destruct (loop_body_Raise st tr e Hlt Hraise) as [(-> & Hq & Hday)|Hjob]; [left | by right].
  split_and!; [done | | done].
  destruct (reachable_day_count st tr Hst) as (_ & Hsame & _).
  apply quota_reached_true in Hq.
  destruct (decide (i st ≤ max_jobs_day)%nat); lia.
Qed.

(** A pass inside the list goes through when the ids of the jobs resolve,
    the service answers and, if the count of the day is at its maximum, a
    day has passed. *)
Lemma loop_body_proceeds (st : sched) (tr : trace) :
  (∀ j, j ∈ job_list → is_Some (request' j)) →
  (∀ tr0 ori des, is_Some (oracle tr0 ori des)) →
  (i st < n_jobs')%nat →
  (quota_reached st = true → (clock tr - last_time st <? day)%float = false) →
  ∃ c, body' st tr = Ok c.
Proof.
  intros Hreq Horacle Hlt Hday. rewrite loop_body_unfold; cbv zeta.
  assert (quota_reached st && (clock tr - last_time st <? day)%float = false) as ->.
  { destruct (quota_reached st); [by apply Hday | done]. }
  destruct (lookup_lt_is_Some_2 job_list (i st) Hlt) as [[[grp o] d] Hjob].
  rewrite Hjob. destruct (Hreq _ (list_elem_of_lookup_2 _ _ _ Hjob)) as [[ori des] Hr].
  unfold request_of in Hr; simpl in Hr.
  destruct (dict_get o _) as [ori'|]; [|done]. simpl in Hr.
  destruct (dict_get d _) as [des'|]; [|done].
  destruct (Horacle (trace_at_dispatch st tr (clock tr)) ori' des') as [dist ->]. eauto.
Qed.

(** The run returns when every pass that finds the count of the day at its
    maximum also finds that a day has passed. *)
Lemma run_completes_after_days :
  (∀ j, j ∈ job_list → is_Some (request' j)) →
  (∀ tr ori des, is_Some (oracle tr ori des)) →
  (∀ st tr, reach' (st, tr) → (i st < n_jobs')%nat → quota_reached st = true →
            (clock tr - last_time st <? day)%float = false) →
  ∃ m tr, run' = Some (Ok (m, tr)).
Proof.
  intros Hreq Horacle Hdays.
  enough (∀ fuel st tr, reach' (st, tr) → (n_jobs' ≤ i st + fuel)%nat →
            ∃ c, while_loop clock oracle addr_book job_list fuel st tr = Some (Ok c))
    as Hloop.
  { destruct (Hloop n_jobs' init []) as [[st tr] Hrun]; [constructor | simpl; lia |].
    unfold get_dist_mat. rewrite Hrun. eauto. }
  induction fuel as [|fuel IH]; intros st tr Hst Hfuel; simpl;
    case_bool_decide as Hlt; try (by eauto); [lia|].
  destruct (loop_body_proceeds st tr Hreq Horacle Hlt (Hdays st tr Hst Hlt))
    as [[st' tr'] Hbody].
  rewrite Hbody. apply IH.
  - eapply rtc_r; [exact Hst|]. by split.
  - apply loop_body_Ok in Hbody as (?&?&?&?&?&?&_&_&_&_&->&_). simpl. lia.
Qed.

(** Past the first [max_jobs_day] jobs the count of the day has started
    again from the job after them. *)
Lemma reachable_second_day (st : sched) (tr : trace) :
  reach' (st, tr) →
  (max_jobs_day < i st ≤ 2 * max_jobs_day → num_jobs_day st = i st - max_jobs_day)%nat.
Proof.
  intros Hst.
  enough ((i st ≤ max_jobs_day → num_jobs_day st = i st)%nat
          ∧ (max_jobs_day < i st ≤ 2 * max_jobs_day
             → num_jobs_day st = i st - max_jobs_day)%nat) as [_ H] by done.
  revert st tr Hst. apply reachable_ind; [simpl; lia|].
  intros st tr grp o d ori des dist _ [Hfirst Hsecond] _ _ _ _ _.
  cbn [i num_jobs_day after_dispatch]. unfold quota_reached.
  assert (1 ≤ max_jobs_day)%nat by (unfold max_jobs_day; lia).
  case_bool_decide; lia.
Qed.

(** In a list of at most twice [max_jobs_day] jobs, the one pass that
    can find the count of the day at its maximum is the one after the
    [max_jobs_day]-th dispatch. *)
Lemma quota_reached_cursor (st : sched) (tr : trace) :
  reach' (st, tr) → (i st < n_jobs')%nat → (n_jobs' ≤ 2 * max_jobs_day)%nat →
  quota_reached st = true → i st = max_jobs_day.
Proof.
  intros Hst Hlt Hjobs Hq%quota_reached_true.
  destruct (reachable_day_count st tr Hst) as (_ & Hsame & _).
  pose proof (reachable_second_day st tr Hst) as Hsecond.
  assert (1 ≤ max_jobs_day)%nat by (unfold max_jobs_day; lia).
  destruct (decide (i st ≤ max_jobs_day)%nat); lia.
Qed.

(** X16. A list of at most twice [max_jobs_day] jobs whose ids resolve is
    served in full when the service answers and the pass after the
    [max_jobs_day]-th dispatch finds that a day has passed: that pass
    starts the count again and no later pass meets the maximum. *)
Theorem long_run_completes :
  (∀ j, j ∈ job_list → is_Some (request' j)) →
  (∀ tr ori des, is_Some (oracle tr ori des)) →
  (n_jobs' ≤ 2 * max_jobs_day)%nat →
  (∀ st tr, reach' (st, tr) → i st = max_jobs_day →
            (clock tr - last_time st <? day)%float = false) →
  ∃ m tr, run' = Some (Ok (m, tr)).
Proof.
  intros Hreq Horacle Hjobs Hday. apply run_completes_after_days; [done..|].
  intros st tr Hst Hlt Hq. apply Hday; [done|]. by apply (quota_reached_cursor st tr).
Qed.

(** X17. [last_time] is the latest reading of the clock: at every head of
    the loop it holds the time read by the pass before (the value set
    back by [reset_gap] at a roll-over does not outlive its pass), and 0
    before the first pass. *)
Theorem last_time_last_reading (st : sched) (tr : trace) :
  reach' (st, tr) →
  match last (readings tr) with
  | Some t => last_time st = t ∧ (0 < i st)%nat
  | None => last_time st = 0%float ∧ i st = 0%nat
  end.
Proof.
  revert st tr. apply reachable_ind; simpl; [done|].
  intros st tr grp o d ori des dist _ _ _ _ _ _ _.
  rewrite readings_dispatch, last_snoc. split; [done | lia].
Qed.

End RunMore.

(** Under a clock that counts the requests, the reading at a head of the
    loop is the tick of the cursor and [last_time] the tick before. *)
Lemma counting_ticks (ticks : nat → float)
    (oracle : trace → string → string → option string)
    (addr_book : address_book) (job_list : list job) (st : sched) (tr : trace) :
  reachable (counting_clock ticks) oracle addr_book job_list (st, tr) →
  counting_clock ticks tr = ticks (i st)
  ∧ ∀ k, i st = S k → last_time st = ticks k.
Proof.
  unfold counting_clock.
  enough (reachable (counting_clock ticks) oracle addr_book job_list (st, tr) →
          length (gets tr) = i st ∧ ∀ k, i st = S k → last_time st = ticks k) as H.
  { intros [-> ?]%H. done. }
  revert st tr. apply reachable_ind; simpl; [done|].
  intros st tr grp o d ori des dist _ [Hgets _] _ _ _ _ _.
  rewrite gets_snoc_get, gets_trace_at_dispatch, length_app. simpl. split; [lia|].
  intros k [= <-]. unfold counting_clock. by rewrite Hgets.
Qed.

(** ** More on [create_jobs] and [export_result] *)

(** X18. [create_jobs] returns no job exactly when no group has two
    addresses; an empty book and groups of one address are such cases. *)
Theorem create_jobs_nil_iff (book : address_book) :
  create_jobs book = [] ↔ Forall (λ ga, (length ga.2 ≤ 1)%nat) book.
Proof.
  rewrite create_jobs_bind. induction book as [|[g adds] book IH].
  - split; [constructor | done].
  - rewrite bind_cons, Forall_cons, <- IH. simpl.
    assert (group_jobs (g, adds) = [] ↔ (length adds ≤ 1)%nat) as <-.
    { unfold group_jobs, keys. simpl.
      destruct adds as [|a [|b adds]]; simpl; (split; [intros Hnil | intros Hlen]);
        try done; try lia. }
    split; [by intros [-> ->]%app_eq_nil | by intros [-> ->]].
Qed.

(** X19. The jobs of a book are the jobs of its groups, one group after the
    other in the order of the book: the list for two books put end to end
    is the list of the first followed by the list of the second, and the
    jobs of one group take the group's pairs in the order of
    [combinations]. *)
Theorem create_jobs_app (book1 book2 : address_book) (g : Z) (adds : group) :
  create_jobs (book1 ++ book2) = create_jobs book1 ++ create_jobs book2
  ∧ create_jobs [(g, adds)] = (λ p, (g, p.1, p.2)) <$> combinations2 (keys adds).
Proof.
  rewrite !create_jobs_bind. split; [apply bind_app|].
  simpl. rewrite app_nil_r. unfold group_jobs. simpl.
  apply list_fmap_ext. by intros _ [o d] _.
Qed.

Lemma foldl_insert_is_Some (l : list (Z * string)) (acc : gmap Z string) (o : Z) :
  is_Some (foldl (λ addr_name ia, <[ia.1 := ia.2]> addr_name) acc l !! o)
  ↔ o ∈ keys l ∨ is_Some (acc !! o).
Proof.
  unfold keys. revert acc. induction l as [|[k v] l IH]; intros acc; simpl.
  - rewrite elem_of_nil. tauto.
  - rewrite IH, elem_of_cons. destruct (decide (o = k)) as [->|Hne].
    + rewrite lookup_insert_eq. split; [by left; left | eauto].
    + rewrite lookup_insert_ne by done. tauto.
Qed.

(** [addr_name] has a name for the ids of the book and for no other. *)
Lemma build_addr_name_is_Some (book : address_book) (o : Z) :
  is_Some (build_addr_name book !! o) ↔ o ∈ all_ids book.
Proof.
  rewrite build_addr_name_entries, foldl_insert_is_Some, keys_entries, lookup_empty.
  split; [intros [?|[? ?]]; done | by left].
Qed.

Lemma mapM_result_Raise {A B : Type} (f : A → result B) (g : A → B)
    (l1 l2 : list A) (x : A) (e : exn) :
  (∀ y, y ∈ l1 → f y = Ok (g y)) → f x = Raise e →
  mapM f (l1 ++ x :: l2) = Raise e.
Proof.
  induction l1 as [|y l1 IH]; intros Hok Hx; simpl.
  - by rewrite Hx.
  - rewrite (Hok y) by left. simpl. rewrite IH; [done | | done].
    intros z Hz. apply Hok. by right.
Qed.

(** The rows written when every key of the matrix has a name. *)
Lemma export_result_named (book : address_book) (m : matrix) (name : Z → string) :
  (∀ o, o ∈ sorted_keys m → build_addr_name book !! o = Some (name o)) →
  export_result book m
  = Ok ((CStr "sample" :: (CStr ∘ name <$> sorted_keys m))
        :: ((λ o, CStr (name o) :: (get_or_zero m o <$> sorted_keys m))
              <$> sorted_keys m)).
Proof.
  intros Hname. unfold export_result.
  rewrite (mapM_result_Ok _ (sorted_keys m) name); simpl.
  2:{ intros o Ho. unfold name_of. by rewrite (Hname o Ho). }
  rewrite (mapM_result_Ok _ (sorted_keys m)
             (λ o, CStr (name o) :: (get_or_zero m o <$> sorted_keys m))); simpl.
  2:{ intros o Ho. unfold name_of. by rewrite (Hname o Ho). }
  unfold mret, result_ret. by rewrite list_fmap_compose.
Qed.

(** The names [export_result] uses, and the rows it writes when the keys
    of the matrix are ids of the book. *)
Lemma export_result_ids (book : address_book) (m : matrix) :
  (∀ o, is_Some (m !! o) → o ∈ all_ids book) →
  export_result book m
  = Ok ((CStr "sample"
         :: (CStr ∘ (λ o, default EmptyString (build_addr_name book !! o))
               <$> sorted_keys m))
        :: ((λ o, CStr (default EmptyString (build_addr_name book !! o))
                  :: (get_or_zero m o <$> sorted_keys m))
              <$> sorted_keys m)).
Proof.
  intros Hkeys.
  apply (export_result_named book m (λ o, default EmptyString (build_addr_name book !! o))).
  intros o Ho%elem_of_sorted_keys%Hkeys.
  apply build_addr_name_is_Some in Ho as [a Ha]. by rewrite Ha.
Qed.

(** The ids of a well-formed book that share their group with another. *)
Lemma covers_partner (book : address_book) (o : Z) :
  addr_book_ok book →
  (∃ d, covers (create_jobs book) o d) ↔
  ∃ g adds, (g, adds) ∈ book ∧ o ∈ keys adds ∧ (2 ≤ length adds)%nat.
Proof.
  intros [Hbook Hgroups]. split.
  - intros (d & g & Hin).
    assert (∃ adds, (g, adds) ∈ book ∧ o ∈ keys adds ∧ d ∈ keys adds ∧ o ≠ d)
      as (adds & Hadds & Ho & Hd & Hne).
    { destruct Hin as [Hin|Hin];
        pose proof (create_jobs_distinct _ _ _ _ (conj Hbook Hgroups) Hin) as Hne;
        apply elem_of_create_jobs in Hin as (adds & Hadds & [? ?]%elem_of_combinations2);
        exists adds; by split_and!. }
    exists g, adds. split_and!; [done..|].
    unfold keys in Ho, Hd. rewrite <- (length_fmap fst).
    destruct (adds.*1) as [|x [|y l]]; simpl; [by apply elem_of_nil in Ho| |lia].
    apply list_elem_of_singleton in Ho, Hd. congruence.
  - intros (g & adds & Hadds & Ho & Hlen).
    rewrite Forall_forall in Hgroups. pose proof (Hgroups _ Hadds) as Hnd.
    unfold is_dict in Hnd. simpl in Hnd.
    assert (∃ d, d ∈ keys adds ∧ o ≠ d) as (d & Hd & Hne).
    { unfold keys in *. rewrite <- (length_fmap fst) in Hlen.
      destruct (adds.*1) as [|x [|y l]]; simpl in Hlen; [lia..|].
      apply NoDup_cons in Hnd as [Hx _].
      destruct (decide (o = x)) as [->|Hox].
      - exists y. split; [right; left|]. intros ->. apply Hx. left.
      - exists x. split; [left | done]. }
    exists d. by apply (covers_create_jobs book g o d adds).
Qed.

(** X20. For a matrix returned by a run over the jobs of a well-formed
    book, [export_result] does not raise and writes a square table: with
    [n] keys in the matrix, [n + 1] rows of [n + 1] fields; the header
    repeats the labels of the rows, the table is symmetric, and its
    diagonal holds the integer 0. *)
Theorem export_run_table (clock : trace → float)
    (oracle : trace → string → string → option string)
    (book : address_book) (m : matrix) (tr : trace) :
  addr_book_ok book →
  get_dist_mat clock oracle book (create_jobs book) = Some (Ok (m, tr)) →
  ∃ rows,
    export_result book m = Ok rows
    ∧ length rows = S (length (sorted_keys m))
    ∧ Forall (λ row, length row = S (length (sorted_keys m))) rows
    ∧ table_cell rows 0 0 = Some (CStr "sample")
    ∧ ∀ r c, (r < length (sorted_keys m))%nat → (c < length (sorted_keys m))%nat →
        table_cell rows 0 (S r) = table_cell rows (S r) 0
        ∧ table_cell rows (S r) (S c) = table_cell rows (S c) (S r)
        ∧ table_cell rows (S r) (S r) = Some (CInt 0).
Proof.
  intros Hok Hrun.
  pose proof (get_dist_mat_keys_ids _ _ _ _ _ Hrun) as Hkeys.
  assert (symmetric m ∧ ∀ o, cell_at m o o = None) as [Hsym Hdiag].
  { destruct (run_matrix_shape _ _ _ _ _ _ Hrun) as [Hcells _].
    apply get_dist_mat_Ok in Hrun as (st & tr0 & Hst & _ & -> & _).
    destruct (reachable_matrix _ _ _ _ _ _ Hst) as (Hsym & _). split; [done|].
    intros o. apply eq_None_not_Some. rewrite Hcells. intros [g Hg].
    assert ((g, o, o) ∈ create_jobs book) as Hjob by tauto.
    by apply create_jobs_distinct in Hjob. }
  eexists. split; [by apply export_result_ids|].
  set (ids := sorted_keys m). split_and!.
  - simpl. by rewrite length_fmap.
  - constructor; [simpl; by rewrite length_fmap|].
    apply Forall_fmap, Forall_forall. intros o _. simpl. by rewrite length_fmap.
  - done.
  - intros r c Hr Hc. unfold table_cell. simpl.
    destruct (lookup_lt_is_Some_2 ids r Hr) as [o Ho].
    destruct (lookup_lt_is_Some_2 ids c Hc) as [d Hd].
    rewrite !list_lookup_fmap, Ho, Hd. simpl.
    rewrite !list_lookup_fmap, Ho, Hd. simpl.
    rewrite !get_or_zero_cell_at, (Hsym o d), Hdiag. done.
Qed.

(** X21. The rows of the matrix a run returns, and so the rows and columns
    of the table, are those of the ids that share their group with another
    id: an address alone in its group is left out of the result. *)
Theorem lone_address_left_out (clock : trace → float)
    (oracle : trace → string → string → option string)
    (book : address_book) (m : matrix) (tr : trace) :
  addr_book_ok book →
  get_dist_mat clock oracle book (create_jobs book) = Some (Ok (m, tr)) →
  ∀ o, o ∈ sorted_keys m ↔
       ∃ g adds, (g, adds) ∈ book ∧ o ∈ keys adds ∧ (2 ≤ length adds)%nat.
Proof.
  intros Hok [_ Hrows]%run_matrix_shape o.
  by rewrite elem_of_sorted_keys, Hrows, covers_partner.
Qed.

(** X22. When some key of the matrix is no id of the book,
    [export_result] raises [KeyError] for the least such key (while it
    builds the header), whatever the matrix holds. *)
Theorem export_result_KeyError (book : address_book) (m : matrix) (k : Z) :
  is_Some (m !! k) → k ∉ all_ids book →
  (∀ k', is_Some (m !! k') → k' < k → k' ∈ all_ids book) →
  export_result book m = Raise (KeyError k).
Proof.
  intros Hk Hnone Hleast.
  apply elem_of_sorted_keys, list_elem_of_split in Hk as (l1 & l2 & Hsplit).
  assert (∀ y, y ∈ l1 → y < k) as Hbelow.
  { pose proof (sorted_keys_ascending m) as Hsorted.
    apply (Sorted_StronglySorted _) in Hsorted. rewrite Hsplit in Hsorted.
    clear -Hsorted. induction l1 as [|x l1 IH]; intros y Hy; [by apply elem_of_nil in Hy|].
    simpl in Hsorted. apply StronglySorted_inv in Hsorted as [Hrest Hx].
    apply elem_of_cons in Hy as [->|Hy]; [|by apply IH].
    rewrite Forall_forall in Hx. apply Hx. rewrite elem_of_app. right. by left. }
  unfold export_result. rewrite Hsplit.
  rewrite (mapM_result_Raise _ (λ o, default EmptyString (build_addr_name book !! o))
             l1 l2 k (KeyError k)); [done | |].
  - intros y Hy. unfold name_of.
    assert (is_Some (build_addr_name book !! y)) as [a ->]; [|done].
    apply build_addr_name_is_Some, Hleast; [|by apply Hbelow].
    apply elem_of_sorted_keys. rewrite Hsplit, elem_of_app. by left.
  - unfold name_of.
    destruct (build_addr_name book !! k) as [a|] eqn:Ha; [|done].
    destruct Hnone. apply build_addr_name_is_Some. eauto.
Qed.

(** ** [main] *)

Section Main.
Context (int : string → option Z).
Context (clock : trace → float) (oracle : trace → string → string → option string).

#[local] Abbreviation main' := (main int clock oracle).

Lemma import_addr_ok (lines : list string) (book : address_book) :
  import_addr int lines = inr book → addr_book_ok book.
Proof.
  intros Hloop. destruct (import_loop_inr int lines [] book 0 imported_nil Hloop) as [Hinv _].
  by destruct (imported_ok _ _ Hinv).
Qed.

(** X23. [main] ends on every file. It writes the rows [export_result]
    makes of the matrix of the run over the book read, or it raises: the
    exception of [import_addr], or, from [get_dist_mat], [NameError] or
    the failure of a request. Neither [KeyError] nor [IndexError] can come
    out of [get_dist_mat] or [export_result] there. *)
Theorem main_outcomes (lines : list string) :
  ∃ out, main' lines = Some out
    ∧ match out with
      | Written rows tr =>
          ∃ book m, import_addr int lines = inr book
            ∧ get_dist_mat clock oracle book (create_jobs book) = Some (Ok (m, tr))
            ∧ export_result book m = Ok rows
      | ImportRaised e => import_addr int lines = inl e
      | Raised e => e = NameError "wait_time" ∨ e = OracleError
      end.
Proof.
  unfold main. destruct (import_addr int lines) as [e|book] eqn:Himport; [by eexists|].
  pose proof (import_addr_ok lines book Himport) as Hok. cbv zeta.
  destruct (get_dist_mat_total clock oracle book (create_jobs book)) as [[[m tr]|e] Hrun];
    rewrite Hrun.
  - rewrite export_result_ids by (by eapply get_dist_mat_keys_ids).
    eexists. split; [done|]. exists book, m. split_and!; [done..|].
    by rewrite export_result_ids by (by eapply get_dist_mat_keys_ids).
  - eexists. split; [done|]. simpl.
    apply run_Raise in Hrun as (st & tr & Hst & Hlt & Hraise).
    destruct (loop_body_Raise _ _ _ _ st tr e Hlt Hraise)
      as [(-> & _)|(g & o & d & Hjob & Hcase)]; [by left|].
    apply list_elem_of_lookup_2, (request_of_create_jobs book _ Hok) in Hjob as [[ori des] Hreq].
    unfold request_of, addr_of in *. simpl in *.
    destruct Hcase as [[Ho _]|[(_ & Hd & _)|(_ & _ & _ & _ & ->)]]; [| |by right].
    + by rewrite Ho in Hreq.
    + destruct (dict_get o _); [|done]. simpl in Hreq. by rewrite Hd in Hreq.
Qed.

(** X24. When [import_addr] returns a book of at most [max_jobs_day] jobs
    and the service answers every request, [main] writes the file: it has
    sent the request of each job, in the order of the list, and no
    other, printed its line last, and the table has a
    header and one row per key of the matrix. *)
Theorem main_writes (lines : list string) (book : address_book) :
  import_addr int lines = inr book →
  (∀ tr ori des, is_Some (oracle tr ori des)) →
  (length (create_jobs book) ≤ max_jobs_day)%nat →
  ∃ m rows tr,
    main' lines = Some (Written rows tr)
    ∧ get_dist_mat clock oracle book (create_jobs book) = Some (Ok (m, tr))
    ∧ export_result book m = Ok rows
    ∧ Forall2 (λ j r, request_of book j = Some r) (create_jobs book) (gets tr)
    ∧ last tr = Some (EvPrint "Finish querying!")
    ∧ length rows = S (length (sorted_keys m)).
Proof.
  intros Himport Horacle Hmax.
  pose proof (import_addr_ok lines book Himport) as Hok.
  destruct (get_dist_mat_completes clock oracle book Hok Horacle Hmax) as (m & tr & Hrun).
  pose proof (export_result_ids book m (get_dist_mat_keys_ids _ _ _ _ _ Hrun)) as Hexport.
  eexists m, _, tr. unfold main. rewrite Himport. cbv zeta. rewrite Hrun, Hexport.
  split_and!; [done | done | done | | | simpl; by rewrite length_fmap].
  - apply get_dist_mat_Ok in Hrun as (st & tr0 & Hst & Hi & _ & ->).
    pose proof (reachable_gets _ _ _ _ _ _ Hst) as Hgets.
    rewrite Hi in Hgets. unfold num_jobs in Hgets. rewrite take_ge in Hgets by done.
    unfold gets. rewrite omap_app. simpl. by rewrite app_nil_r.
  - apply get_dist_mat_Ok in Hrun as (st & tr0 & _ & _ & _ & ->). by rewrite last_snoc.
Qed.

(** X25. When the book read gives no job (no group has two addresses, or
    every line of the file is skipped), [main] reads no clock and sends no
    request: it prints its line and writes the header alone. *)
Theorem main_header_only (lines : list string) (book : address_book) :
  import_addr int lines = inr book → create_jobs book = [] →
  main' lines = Some (Written [[CStr "sample"]] [EvPrint "Finish querying!"]).
Proof.
  intros Himport Hjobs. unfold main. rewrite Himport. cbv zeta. rewrite Hjobs.
  reflexivity.
Qed.

End Main.

(** ** Closed examples for the rest of the program *)

Lemma parse_line_record_witness :
  parse_line int_decimal (record "12 Main St" "7") = inr ("12 Main St"%string, 7).
Proof.
  apply (parse_line_record int_decimal "12 Main St" "7" (String newline EmptyString)).
  - by_evaluation.
  - by_evaluation.
  - reflexivity.
  - discriminate.
  - repeat constructor.
Defined.

Lemma parse_line_blank_group_witness :
  parse_line int_decimal ("12 Main St" ++ String tab (String newline EmptyString))
  = inl IndexError_items.
Proof.
  apply (parse_line_blank_group int_decimal "12 Main St" (String newline EmptyString)).
  - by_evaluation.
  - repeat constructor.
Defined.

Lemma import_file_3_1 : import_addr int_decimal file_3_1 = inr book_3_1.
Proof. vm_compute. reflexivity. Qed.

Lemma import_addr_well_formed_witness :
  import_addr int_decimal file_3_1 = inr book_3_1
  ∧ addr_book_ok book_3_1
  ∧ ids_one_group book_3_1
  ∧ (∀ x, x ∈ all_ids book_3_1 ↔ 0 ≤ x < Z.of_nat (length (kept file_3_1)))
  ∧ Forall (λ ga, ga.2 ≠ [] ∧ StronglySorted Z.lt (keys ga.2)) book_3_1.
Proof.
  split; [exact import_file_3_1|].
  exact (import_addr_well_formed int_decimal file_3_1 book_3_1 import_file_3_1).
Defined.

(** The address with id 3 of group 1 is that of the fourth kept line. *)
Lemma import_addr_lookup_witness :
  addr_of book_3_1 1 3 = Some "C"%string ↔
  ∃ k line, 3 = Z.of_nat k ∧ kept file_3_1 !! k = Some line
            ∧ parse_line int_decimal line = inr ("C"%string, 1).
Proof.
  exact (import_addr_lookup int_decimal file_3_1 book_3_1 1 3 "C" import_file_3_1).
Defined.

Lemma import_addr_jobs_ascending_witness :
  (1, 1, 3) ∈ create_jobs book_3_1 ∧ 1 < 3.
Proof.
  assert ((1, 1, 3) ∈ create_jobs book_3_1) as Hjob by by_evaluation.
  split; [exact Hjob|].
  exact (import_addr_jobs_ascending int_decimal file_3_1 book_3_1 1 1 3 import_file_3_1 Hjob).
Defined.

Lemma book_3_2_ok : addr_book_ok book_3_2.
Proof. unfold addr_book_ok, is_dict. by_evaluation. Qed.

Lemma book_2_1_ok : addr_book_ok book_2_1.
Proof. unfold addr_book_ok, is_dict. by_evaluation. Qed.

Lemma const_oracle_answers (v : string) (tr : trace) (ori des : string) :
  is_Some (const_oracle v tr ori des).
Proof. by exists v. Qed.

Lemma first_pass_reachable :
  reachable (sim_clock epoch_2014 slow) (const_oracle "1000") book_3_2
            (create_jobs book_3_2) (first_pass_st, first_pass_tr).
Proof. apply (passes_reachable _ _ _ _ 1). vm_compute. reflexivity. Qed.

Lemma day_count_bounded_witness :
  (num_jobs_day first_pass_st ≤ max_jobs_day)%nat
  ∧ (num_jobs_day first_pass_st ≤ i first_pass_st)%nat
  ∧ (i first_pass_st ≤ max_jobs_day → num_jobs_day first_pass_st = i first_pass_st)%nat
  ∧ (0 < i first_pass_st → 0 < num_jobs_day first_pass_st)%nat.
Proof.
  exact (day_count_bounded _ _ _ _ first_pass_st first_pass_tr first_pass_reachable).
Defined.

Lemma last_time_last_reading_witness :
  last_time first_pass_st = epoch_2014 ∧ (0 < i first_pass_st)%nat.
Proof.
  exact (last_time_last_reading _ _ _ _ first_pass_st first_pass_tr first_pass_reachable).
Defined.

(** With readings an eighth of a second apart and a day added from the
    [max_jobs_day]-th request on, the pass after it finds a day passed. *)
Lemma then_a_day_passed (st : sched) (tr : trace) :
  reachable (counting_clock (then_a_day (eighths epoch_2014))) (const_oracle "1000")
            book_72 (create_jobs book_72) (st, tr) →
  i st = max_jobs_day →
  (counting_clock (then_a_day (eighths epoch_2014)) tr - last_time st <? day)%float = false.
Proof.
  intros [Hclock Hlast]%counting_ticks Hi.
  rewrite Hclock, (Hlast 2499%nat), Hi by (by rewrite Hi).
  vm_compute. reflexivity.
Qed.

(** Without the added day it does not. *)
Lemma eighths_no_day (st : sched) (tr : trace) :
  reachable (counting_clock (eighths epoch_2039)) (const_oracle "7")
            book_72 (create_jobs book_72) (st, tr) →
  i st = max_jobs_day →
  (counting_clock (eighths epoch_2039) tr - last_time st <? day)%float = true.
Proof.
  intros [Hclock Hlast]%counting_ticks Hi.
  rewrite Hclock, (Hlast 2499%nat), Hi by (by rewrite Hi).
  vm_compute. reflexivity.
Qed.

Lemma book_72_resolves (j : job) :
  j ∈ create_jobs book_72 → is_Some (request_of book_72 j).
Proof. apply request_of_create_jobs, book_72_ok. Qed.

Lemma book_72_above_max : (max_jobs_day < num_jobs (create_jobs book_72))%nat.
Proof. unfold num_jobs. rewrite book_72_jobs. unfold max_jobs_day. lia. Qed.

Lemma book_72_two_days : (num_jobs (create_jobs book_72) ≤ 2 * max_jobs_day)%nat.
Proof. unfold num_jobs. rewrite book_72_jobs. unfold max_jobs_day. lia. Qed.

(** The run over the 2556 jobs of [book_72] returns when a day passes
    after the 2500th request. *)
Lemma run_book_72_then_a_day :
  ∃ m tr, get_dist_mat (counting_clock (then_a_day (eighths epoch_2014)))
            (const_oracle "1000") book_72 (create_jobs book_72) = Some (Ok (m, tr)).
Proof.
  apply run_completes_after_days;
    [apply book_72_resolves | apply const_oracle_answers |].
  intros st tr Hst Hlt Hq. apply then_a_day_passed; [done|].
  eapply quota_reached_cursor; [exact Hst | done | apply book_72_two_days | done].
Qed.

Lemma long_run_needs_a_day_witness :
  let clock := counting_clock (then_a_day (eighths epoch_2014)) in
  ∃ st tr,
    reachable clock (const_oracle "1000") book_72 (create_jobs book_72) (st, tr)
    ∧ i st = max_jobs_day ∧ quota_reached st = true
    ∧ (clock tr - last_time st <? day)%float = false.
Proof.
  cbv zeta. destruct run_book_72_then_a_day as (m & tr & Hrun).
  exact (long_run_needs_a_day _ _ _ _ m tr Hrun book_72_above_max).
Defined.

Lemma long_run_completes_witness :
  ∃ m tr, get_dist_mat (counting_clock (then_a_day (eighths epoch_2014)))
            (const_oracle "1000") book_72 (create_jobs book_72) = Some (Ok (m, tr)).
Proof.
  exact (long_run_completes _ _ _ _ book_72_resolves (const_oracle_answers "1000")
           book_72_two_days then_a_day_passed).
Defined.

Lemma quota_exhausted_raises_witness :
  get_dist_mat (counting_clock (eighths epoch_2039)) (const_oracle "7")
               book_72 (create_jobs book_72)
  = Some (Raise (NameError "wait_time")).
Proof.
  exact (quota_exhausted_raises _ _ _ _ book_72_resolves (const_oracle_answers "7")
           book_72_above_max eighths_no_day).
Defined.

(** The run over [book_3_2], for the examples below. *)
Lemma run_book_3_2_returns :
  ∃ m tr, get_dist_mat (sim_clock epoch_2014 slow) (const_oracle "1000")
            book_3_2 (create_jobs book_3_2) = Some (Ok (m, tr)).
Proof.
  apply get_dist_mat_completes;
    [apply book_3_2_ok | apply const_oracle_answers | vm_compute; lia].
Qed.

Lemma run_book_2_1_returns :
  ∃ m tr, get_dist_mat (sim_clock epoch_2014 slow) (const_oracle "1000")
            book_2_1 (create_jobs book_2_1) = Some (Ok (m, tr)).
Proof.
  apply get_dist_mat_completes;
    [apply book_2_1_ok | apply const_oracle_answers | vm_compute; lia].
Qed.

Lemma book_3_2_pairs : NoDup (pair_of <$> create_jobs book_3_2).
Proof. by_evaluation. Qed.

(** The answer to the second request is in both cells of the second job. *)
Lemma answers_stored_witness :
  ∃ m tr,
    get_dist_mat (sim_clock epoch_2014 slow) (const_oracle "1000")
                 book_3_2 (create_jobs book_3_2) = Some (Ok (m, tr))
    ∧ ∃ v, answers tr !! 1%nat = Some v ∧ cell_at m 0 2 = Some v ∧ cell_at m 2 0 = Some v.
Proof.
  destruct run_book_3_2_returns as (m & tr & Hrun). exists m, tr. split; [exact Hrun|].
  exact (answers_stored _ _ _ _ m tr book_3_2_pairs Hrun 1%nat 1 0 2 eq_refl).
Defined.

Lemma unknown_id_raises_witness :
  get_dist_mat (sim_clock epoch_2014 slow) (const_oracle "1000") book_2_1 jobs_unknown_id
  = Some (Raise (KeyError 7)).
Proof.
  apply (unknown_id_raises _ _ book_2_1 jobs_unknown_id 1%nat 1 0 7).
  - unfold max_jobs_day. lia.
  - reflexivity.
  - intros j ->%list_elem_of_singleton. by eexists.
  - apply const_oracle_answers.
  - reflexivity.
Defined.

Lemma completed_run_served_witness :
  ∃ ori des tr0 v,
    request_of book_3_2 (1, 0, 2) = Some (ori, des)
    ∧ const_oracle "1000" tr0 ori des = Some v.
Proof.
  destruct run_book_3_2_returns as (m & tr & Hrun).
  apply (completed_run_served _ _ _ _ m tr Hrun). by_evaluation.
Defined.

(** When the service does not answer, the run raises in its first pass. *)
Lemma run_raise_cases_witness :
  ∃ st tr,
    reachable (sim_clock epoch_2014 slow) no_answer book_3_2 (create_jobs book_3_2) (st, tr)
    ∧ (i st < num_jobs (create_jobs book_3_2))%nat.
Proof.
  destruct (run_raise_cases (sim_clock epoch_2014 slow) no_answer book_3_2
              (create_jobs book_3_2) OracleError) as (st & tr & Hst & Hlt & _).
  { vm_compute. reflexivity. }
  exists st, tr. split; [exact Hst | exact Hlt].
Defined.

Lemma export_run_table_witness :
  ∃ m tr,
    get_dist_mat (sim_clock epoch_2014 slow) (const_oracle "1000")
                 book_3_2 (create_jobs book_3_2) = Some (Ok (m, tr))
    ∧ ∃ rows, export_result book_3_2 m = Ok rows
        ∧ length rows = S (length (sorted_keys m))
        ∧ table_cell rows 0 0 = Some (CStr "sample").
Proof.
  destruct run_book_3_2_returns as (m & tr & Hrun). exists m, tr. split; [exact Hrun|].
  destruct (export_run_table _ _ book_3_2 m tr book_3_2_ok Hrun)
    as (rows & Hexport & Hlen & _ & Hhead & _).
  exists rows. split_and!; [exact Hexport | exact Hlen | exact Hhead].
Defined.

(** In [book_2_1] the id 0 has a row and the id 2, alone in group 2, has
    none. *)
Lemma lone_address_left_out_witness :
  ∃ m tr,
    get_dist_mat (sim_clock epoch_2014 slow) (const_oracle "1000")
                 book_2_1 (create_jobs book_2_1) = Some (Ok (m, tr))
    ∧ 0 ∈ sorted_keys m ∧ 2 ∉ sorted_keys m.
Proof.
  destruct run_book_2_1_returns as (m & tr & Hrun). exists m, tr. split; [exact Hrun|].
  pose proof (lone_address_left_out _ _ book_2_1 m tr book_2_1_ok Hrun) as Hrows.
  split.
  - apply Hrows. exists 1, [(0, "A"); (1, "B")]%string.
    split_and!; [by_evaluation | by_evaluation | simpl; lia].
  - intros (g & adds & Hin & Hkey & Hlen)%Hrows.
    apply elem_of_cons in Hin as [[= -> ->]|Hin%list_elem_of_singleton].
    + revert Hkey. by_evaluation.
    + injection Hin as -> ->. simpl in Hlen. lia.
Defined.

Lemma export_result_KeyError_witness :
  export_result book_2_1 matrix_key_7 = Raise (KeyError 7).
Proof.
  apply (export_result_KeyError book_2_1 matrix_key_7 7).
  - by eexists.
  - by_evaluation.
  - intros k' [row Hrow] Hlt. unfold matrix_key_7 in Hrow.
    apply lookup_singleton_Some in Hrow as [<- _]. lia.
Defined.

Lemma main_writes_witness :
  ∃ rows tr,
    main int_decimal (sim_clock epoch_2014 slow) (const_oracle "1000") file_3_1
    = Some (Written rows tr)
    ∧ last tr = Some (EvPrint "Finish querying!").
Proof.
  destruct (main_writes int_decimal (sim_clock epoch_2014 slow) (const_oracle "1000")
              file_3_1 book_3_1 import_file_3_1 (const_oracle_answers "1000"))
    as (m & rows & tr & Hmain & _ & _ & _ & Hlast & _).
  { vm_compute. lia. }
  exists rows, tr. split; [exact Hmain | exact Hlast].
Defined.

Lemma import_file_lone : import_addr int_decimal file_lone = inr book_lone.
Proof. vm_compute. reflexivity. Qed.

Lemma main_header_only_witness :
  main int_decimal (sim_clock epoch_2014 slow) (const_oracle "1000") file_lone
  = Some (Written [[CStr "sample"]] [EvPrint "Finish querying!"]).
Proof.
  exact (main_header_only int_decimal _ _ file_lone book_lone import_file_lone eq_refl).
Defined.
